(** * ProgressPanel: the progress-stream consumer of ConvertAgent

    A shallow embedding of [src/components/ProgressPanel.vue]: the four
    reactive refs of [setup], the [eventSource] variable, the handlers
    installed by [connectProgressStream], [reset], the two computed status
    values and [formatMessage] with its two regular-expression rewrites.

    Host facilities the component calls ([JSON.parse], [new EventSource],
    [close], [setTimeout], [console.error]) are not code of the repository:
    [JSON.parse] is a parameter of the development, the others are recorded
    in a log of host calls carried by the state. *)

From Stdlib Require Import String Ascii List Arith Lia Bool Floats.
From stdpp Require Import base list strings gmap.
Import ListNotations.

Open Scope string_scope.
Open Scope list_scope.

(** ** Values produced by [JSON.parse] *)

#[local] Set Warnings "-register-all".

Inductive json : Type :=
| JNull
| JBool (b : bool)
| JNum (x : float)
| JStr (s : string)
| JArr (items : list json)
| JObj (props : list (string * json)).

(** A JavaScript computation either returns or throws. *)
Inductive completion (A : Type) : Type :=
| Normal (a : A)
| Throw.
Arguments Normal {A} a.
Arguments Throw {A}.

#[global] Instance completion_ret : MRet completion := fun A a => Normal a.
#[global] Instance completion_bind : MBind completion := fun A B f c =>
  match c with
  | Normal a => f a
  | Throw => Throw
  end.

(** Own-property lookup.  [props] are the properties of the object that
    [JSON.parse] built, one binding for each key. *)
Fixpoint lookup_prop (key : string) (props : list (string * json))
  : option json :=
  match props with
  | [] => None
  | (k, v) :: rest => if String.eqb k key then Some v else lookup_prop key rest
  end.

(** [data.type]: a [TypeError] on [null], [undefined] (here [None]) on a
    primitive, an array, or an object without the property. *)
Definition get_type (data : json) : completion (option json) :=
  match data with
  | JNull => Throw
  | JObj props => Normal (lookup_prop "type" props)
  | _ => Normal None
  end.

(** ** Host calls and the component's state *)

Definition handle := nat.

Inductive call : Type :=
| NewEventSource (url : string) (h : handle)
| Close (h : handle)
| SetTimeout (delay : nat)
| ConsoleError (label : string).

Record World : Type := mkWorld {
  steps : list json;              (* steps.value *)
  isProcessing : bool;            (* isProcessing.value *)
  isComplete : bool;              (* isComplete.value *)
  hasError : bool;                (* hasError.value *)
  eventSource : option handle;    (* let eventSource = null *)
  timers : list nat;              (* due times of the pending delayed closes *)
  clock : nat;                    (* milliseconds *)
  calls : list call               (* host calls so far, oldest first *)
}.

Definition set_steps (v : list json) (w : World) : World :=
  mkWorld v (isProcessing w) (isComplete w) (hasError w)
          (eventSource w) (timers w) (clock w) (calls w).
Definition set_isProcessing (v : bool) (w : World) : World :=
  mkWorld (steps w) v (isComplete w) (hasError w)
          (eventSource w) (timers w) (clock w) (calls w).
Definition set_isComplete (v : bool) (w : World) : World :=
  mkWorld (steps w) (isProcessing w) v (hasError w)
          (eventSource w) (timers w) (clock w) (calls w).
Definition set_hasError (v : bool) (w : World) : World :=
  mkWorld (steps w) (isProcessing w) (isComplete w) v
          (eventSource w) (timers w) (clock w) (calls w).
Definition set_eventSource (v : option handle) (w : World) : World :=
  mkWorld (steps w) (isProcessing w) (isComplete w) (hasError w)
          v (timers w) (clock w) (calls w).
Definition set_timers (v : list nat) (w : World) : World :=
  mkWorld (steps w) (isProcessing w) (isComplete w) (hasError w)
          (eventSource w) v (clock w) (calls w).
Definition set_clock (v : nat) (w : World) : World :=
  mkWorld (steps w) (isProcessing w) (isComplete w) (hasError w)
          (eventSource w) (timers w) v (calls w).
Definition log_call (c : call) (w : World) : World :=
  mkWorld (steps w) (isProcessing w) (isComplete w) (hasError w)
          (eventSource w) (timers w) (clock w) (calls w ++ [c]).

(** [steps.value.push(data)] *)
Definition push_step (data : json) (w : World) : World :=
  set_steps (steps w ++ [data]) w.

(** [if (eventSource) { eventSource.close() }] *)
Definition close_if_connected (w : World) : World :=
  match eventSource w with
  | Some h => log_call (Close h) w
  | None => w
  end.

(** [setTimeout(() => { if (eventSource) eventSource.close() }, delay)]:
    the callback reads the variable when it runs, so a pending timer is
    its due time only. *)
Definition setTimeout_close (delay : nat) (w : World) : World :=
  log_call (SetTimeout delay) (set_timers (timers w ++ [clock w + delay]) w).

(** The state [setup] creates. *)
Definition setup : World :=
  mkWorld [] false false false None [] 0 [].

Definition progress_url : string := "http://localhost:8765/api/progress".

(** The handle [new EventSource] returns: one per object created. *)
Definition is_new (c : call) : bool :=
  match c with NewEventSource _ _ => true | _ => false end.
Definition fresh_handle (w : World) : handle :=
  length (filter (fun c => is_new c = true) (calls w)).

Section Consumer.

(** [JSON.parse]: [None] when it throws a [SyntaxError]. *)
Variable JSON_parse : string -> option json.

Definition parse (text : string) : completion json :=
  match JSON_parse text with
  | Some data => Normal data
  | None => Throw
  end.

(** The [switch (data.type)] of [onmessage]; [ty] is the value of
    [data.type], compared with [===] against the four labels. *)
Definition dispatch (ty : option json) (data : json) (w : World) : World :=
  match ty with
  | Some (JStr t) =>
      if String.eqb t "start" then
        push_step data
          (set_hasError false
             (set_isComplete false
                (set_isProcessing true
                   (set_steps [] w))))
      else if String.eqb t "step" then
        push_step data w
      else if String.eqb t "complete" then
        setTimeout_close 3000
          (set_isComplete true
             (set_isProcessing false
                (push_step data w)))
      else if String.eqb t "error" then
        close_if_connected
          (set_hasError true
             (set_isProcessing false
                (push_step data w)))
      else w
  | _ => w
  end.

(** The body of the [try] block. *)
Definition try_message (event_data : string) (w : World) : completion World :=
  data ← parse event_data;
  ty ← get_type data;
  mret (dispatch ty data w).

Definition parse_failed : string := "解析进度消息失败:".

(** [eventSource.onmessage] *)
Definition onmessage (event_data : string) (w : World) : World :=
  match try_message event_data w with
  | Normal w' => w'
  | Throw => log_call (ConsoleError parse_failed) w
  end.

Definition stream_error : string := "SSE 连接错误:".

(** [eventSource.onerror] *)
Definition onerror (w : World) : World :=
  let w1 := log_call (ConsoleError stream_error) w in
  match eventSource w1 with
  | Some h => set_eventSource None (log_call (Close h) w1)
  | None => w1
  end.

(** [connectProgressStream], called by [onMounted]. *)
Definition connectProgressStream (w : World) : World :=
  let h := fresh_handle w in
  set_eventSource (Some h) (log_call (NewEventSource progress_url h) w).

Definition onMounted (w : World) : World := connectProgressStream w.

Definition onUnmounted (w : World) : World := close_if_connected w.

(** [reset] *)
Definition reset (w : World) : World :=
  set_hasError false
    (set_isComplete false
       (set_isProcessing false
          (set_steps [] w))).

(** Time passing: every pending delayed close whose due time has come
    runs its callback, in the order the timers were set. *)
Fixpoint fire (due : list nat) (now : nat) (w : World) : World :=
  match due with
  | [] => w
  | d :: rest =>
      if (d <=? now)%nat then fire rest now (close_if_connected w)
      else fire rest now w
  end.

Definition elapse (ms : nat) (w : World) : World :=
  let now := clock w + ms in
  let due := timers w in
  fire due now
    (set_timers (filter (fun d => (d <=? now)%nat = false) due)
       (set_clock now w)).

(** What can happen to a mounted component, one event at a time. *)
Inductive input : Type :=
| Message (event_data : string)
| StreamError
| Reset
| Unmount
| Elapse (ms : nat).

Definition step (w : World) (i : input) : World :=
  match i with
  | Message event_data => onmessage event_data w
  | StreamError => onerror w
  | Reset => reset w
  | Unmount => onUnmounted w
  | Elapse ms => elapse ms w
  end.

Definition run (w : World) (inputs : list input) : World :=
  fold_left step inputs w.

Definition deliver (w : World) (frames : list string) : World :=
  run w (map Message frames).

End Consumer.

(** ** The status badge *)

(** [statusClass] *)
Definition statusClass (w : World) : string :=
  if hasError w then "status-error"
  else if isComplete w then "status-complete"
  else if isProcessing w then "status-processing"
  else "status-idle".

(** [statusText] *)
Definition statusText (w : World) : string :=
  if hasError w then "❌ 失败"
  else if isComplete w then "✅ 完成"
  else if isProcessing w then "🔄 处理中"
  else "⏸️ 等待".

(** The four phases of the specification's state machine, and the badge
    the template shows for each. *)
Inductive phase : Type := Idle | Processing | Complete | Failed.

Definition badge_class (p : phase) : string :=
  match p with
  | Idle => "status-idle"
  | Processing => "status-processing"
  | Complete => "status-complete"
  | Failed => "status-error"
  end.

Definition badge_text (p : phase) : string :=
  match p with
  | Idle => "⏸️ 等待"
  | Processing => "🔄 处理中"
  | Complete => "✅ 完成"
  | Failed => "❌ 失败"
  end.

(** The flag that puts the component in a phase; idle needs none. *)
Definition flag (w : World) (p : phase) : bool :=
  match p with
  | Idle => true
  | Processing => isProcessing w
  | Complete => isComplete w
  | Failed => hasError w
  end.

(** error > complete > processing > idle *)
Definition rank (p : phase) : nat :=
  match p with
  | Idle => 0
  | Processing => 1
  | Complete => 2
  | Failed => 3
  end.

(** ** Regular expressions, as far as [formatMessage] uses them

    Strings are sequences of the bytes of their UTF-8 text, as in the
    source file.  The engine is the usual backtracking matcher: a
    continuation receives the rest of the subject and the captures, and
    a failure of the continuation makes a greedy [+] give back its last
    iteration. *)

Definition text := list ascii.

Inductive regex : Type :=
| Lit (c : ascii)                 (* the character itself *)
| NotLit (c : ascii)              (* [^c] *)
| Seq (r1 r2 : regex)
| Plus (r : regex)                (* r+, greedy *)
| Group (i : nat) (r : regex).    (* the i-th capturing parentheses *)

Definition captures := list (nat * text).

Fixpoint capture (i : nat) (caps : captures) : text :=
  match caps with
  | [] => []
  | (j, t) :: rest => if Nat.eqb i j then t else capture i rest
  end.

(** What was consumed between the subject [s] and its suffix [s']. *)
Definition consumed (s s' : text) : text :=
  firstn (length s - length s') s.

Definition orelse {A : Type} (x y : option A) : option A :=
  match x with
  | Some _ => x
  | None => y
  end.

(** The iterations of a greedy [+] whose body is matched by [body]: one
    more iteration is tried before the continuation, and only after an
    iteration that consumed something. *)
Fixpoint iterate {A : Type}
  (body : text -> captures -> (text -> captures -> option A) -> option A)
  (k : text -> captures -> option A)
  (fuel : nat) (s : text) (caps : captures) : option A :=
  match fuel with
  | 0 => None
  | S fuel' =>
      body s caps (fun s1 caps1 =>
        if (length s1 <? length s)%nat
        then orelse (iterate body k fuel' s1 caps1) (k s1 caps1)
        else k s1 caps1)
  end.

Fixpoint rmatch {A : Type} (r : regex) (s : text) (caps : captures)
  (k : text -> captures -> option A) {struct r} : option A :=
  match r with
  | Lit c =>
      match s with
      | x :: s' => if Ascii.eqb x c then k s' caps else None
      | [] => None
      end
  | NotLit c =>
      match s with
      | x :: s' => if Ascii.eqb x c then None else k s' caps
      | [] => None
      end
  | Seq r1 r2 =>
      rmatch r1 s caps (fun s1 caps1 => rmatch r2 s1 caps1 k)
  | Group i r1 =>
      rmatch r1 s caps (fun s1 caps1 => k s1 ((i, consumed s s1) :: caps1))
  | Plus r1 =>
      iterate (rmatch r1) k (S (length s)) s caps
  end.

(** One attempt at the head of [s]: the captures and the unmatched rest. *)
Definition exec (r : regex) (s : text) : option (captures * text) :=
  rmatch r s [] (fun rest caps => Some (caps, rest)).

(** A replacement string: literal text and [$i] references. *)
Inductive piece : Type :=
| Text (t : text)
| Ref (i : nat).

Fixpoint expand (tpl : list piece) (caps : captures) : text :=
  match tpl with
  | [] => []
  | Text t :: rest => t ++ expand rest caps
  | Ref i :: rest => capture i caps ++ expand rest caps
  end.

(** [s.replace(/r/g, tpl)]: leftmost matches, left to right, the next
    attempt starting where the last match ended.  [skip] counts the
    characters of the current match that are still to be passed over. *)
Fixpoint replace_from (r : regex) (tpl : list piece) (skip : nat) (s : text)
  : text :=
  match s with
  | [] =>
      match skip, exec r [] with
      | 0, Some (caps, _) => expand tpl caps
      | _, _ => []
      end
  | x :: s' =>
      match skip with
      | S n => replace_from r tpl n s'
      | 0 =>
          match exec r s with
          | Some (caps, rest) =>
              match length s - length rest with
              | 0 => expand tpl caps ++ x :: replace_from r tpl 0 s'
              | S n => expand tpl caps ++ replace_from r tpl n s'
              end
          | None => x :: replace_from r tpl 0 s'
          end
      end
  end.

Definition replace_all (r : regex) (tpl : list piece) (s : text) : text :=
  replace_from r tpl 0 s.

Definition chars (s : string) : text := list_ascii_of_string s.

Fixpoint lits (t : text) (r : regex) : regex :=
  match t with
  | [] => r
  | c :: t' => Seq (Lit c) (lits t' r)
  end.

Definition dq : ascii := ascii_of_nat 34.
Definition nl : ascii := ascii_of_nat 10.

(** [/📄 \[([^\]]+)\]\(([^)]+)\)/] *)
Definition file_link : regex :=
  lits (chars "📄 [")
    (Seq (Group 1 (Plus (NotLit "]")))
       (lits (chars "](")
          (Seq (Group 2 (Plus (NotLit ")")))
             (Lit ")")))).

(** ['<a href="http://localhost:8765$2" target="_blank" class="file-link">📄 $1</a>'] *)
Definition file_link_html : list piece :=
  [ Text (chars "<a href=" ++ dq :: chars "http://localhost:8765");
    Ref 2;
    Text (dq :: chars " target=" ++ dq :: chars "_blank" ++ dq ::
          chars " class=" ++ dq :: chars "file-link" ++ dq :: chars ">📄 ");
    Ref 1;
    Text (chars "</a>") ].

(** [formatMessage], on the characters of the message. *)
Definition formatMessage_text (message : text) : text :=
  replace_all (Lit nl) [Text (chars "<br>")]
    (replace_all file_link file_link_html message).

(** [formatMessage] *)
Definition formatMessage (message : string) : string :=
  string_of_list_ascii (formatMessage_text (chars message)).

(** ** The rewriting [formatMessage] is specified to perform

    Written from the specification's words, to be compared with the
    regular-expression code above: a token [📄 [label](path)] becomes a
    link to [origin ++ path] showing [📄 label], every other character is
    kept, and line breaks become [<br>] afterwards. *)

Definition token (label path : text) : text :=
  chars "📄 [" ++ label ++ chars "](" ++ path ++ chars ")".

Definition link_html (origin label path : text) : text :=
  chars "<a href=" ++ dq :: origin ++ path ++
  dq :: chars " target=" ++ dq :: chars "_blank" ++ dq ::
  chars " class=" ++ dq :: chars "file-link" ++ dq ::
  chars ">📄 " ++ label ++ chars "</a>".

(** A label is what [[^\]]+] accepts, a path what [[^)]+] accepts. *)
Definition is_label (t : text) : Prop := t <> [] /\ ~ In "]"%char t.
Definition is_path (t : text) : Prop := t <> [] /\ ~ In ")"%char t.

Definition token_at_head (s : text) : Prop :=
  exists label path rest,
    is_label label /\ is_path path /\ s = token label path ++ rest.

Inductive links_rewritten (origin : text) : text -> text -> Prop :=
| lr_end :
    links_rewritten origin [] []
| lr_link label path rest out :
    is_label label -> is_path path ->
    links_rewritten origin rest out ->
    links_rewritten origin (token label path ++ rest)
                    (link_html origin label path ++ out)
| lr_char c s out :
    ~ token_at_head (c :: s) ->
    links_rewritten origin s out ->
    links_rewritten origin (c :: s) (c :: out).

Definition line_breaks (s : text) : text :=
  flat_map (fun c => if Ascii.eqb c nl then chars "<br>" else [c]) s.

Definition backend_origin : string := "http://localhost:8765".

(** ** The stream invariant

    One [start] opens a job and one of [complete] / [error] closes it.
    Frames the handler ignores, and steps, may come at any point. *)

Inductive kind : Type := KStart | KStep | KComplete | KError | KIgnored.

Definition kind_of_type (ty : option json) : kind :=
  match ty with
  | Some (JStr t) =>
      if String.eqb t "start" then KStart
      else if String.eqb t "step" then KStep
      else if String.eqb t "complete" then KComplete
      else if String.eqb t "error" then KError
      else KIgnored
  | _ => KIgnored
  end.

Definition kind_of (JSON_parse : string -> option json) (event_data : string)
  : kind :=
  match JSON_parse event_data with
  | Some data =>
      match get_type data with
      | Normal ty => kind_of_type ty
      | Throw => KIgnored
      end
  | None => KIgnored
  end.

(** [in_job] tells whether a job is open; [None] is a violation. *)
Definition job_step (in_job : bool) (k : kind) : option bool :=
  match k with
  | KStart => if in_job then None else Some true
  | KComplete | KError => if in_job then Some false else None
  | KStep | KIgnored => Some in_job
  end.

Fixpoint well_formed (JSON_parse : string -> option json) (in_job : bool)
  (inputs : list input) : bool :=
  match inputs with
  | [] => true
  | Message event_data :: rest =>
      match job_step in_job (kind_of JSON_parse event_data) with
      | Some in_job' => well_formed JSON_parse in_job' rest
      | None => false
      end
  | _ :: rest => well_formed JSON_parse in_job rest
  end.

(** A frame that parses to the event [data] of type [ty]. *)
Definition is_event (JSON_parse : string -> option json)
  (ty : string) (event_data : string) (data : json) : Prop :=
  JSON_parse event_data = Some data /\
  get_type data = Normal (Some (JStr ty)).

(** The phase the flags stand for, by the badge's priority. *)
Definition phase_of (w : World) : phase :=
  if hasError w then Failed
  else if isComplete w then Complete
  else if isProcessing w then Processing
  else Idle.

(** No [close] was called on the connection. *)
Definition connection_open (h : handle) (w : World) : Prop :=
  ~ In (Close h) (calls w).

(** While a job is open neither terminal flag is set, and the two are
    never set together. *)
Definition exclusive (in_job : bool) (w : World) : Prop :=
  (in_job = true -> isComplete w = false /\ hasError w = false) /\
  (isComplete w && hasError w = false).

(** The guard the specification asks for: the close scheduled by a
    complete event does not close the connection when a start event has
    come in the meantime. *)
Definition stale_close_guarded (JSON_parse : string -> option json)
  (w : World) (h : handle)
  (complete_data : string) (d1 : nat) (start_data : string) (d2 : nat)
  : Prop :=
  connection_open h
    (run JSON_parse w
       [Message complete_data; Elapse d1; Message start_data; Elapse d2]).

(** ** Sample frames

    The graph of [JSON.parse] on a few frames of the backend, enough to
    run the handlers on concrete input. *)

Definition quoted (s : string) : string :=
  String dq s +:+ String dq EmptyString.

Definition frame_text (ty message stamp : string) : string :=
  "{" +:+ quoted "type" +:+ ":" +:+ quoted ty +:+ "," +:+
  quoted "message" +:+ ":" +:+ quoted message +:+ "," +:+
  quoted "timestamp" +:+ ":" +:+ stamp +:+ "}".

Definition frame_value (ty message : string) (stamp : float) : json :=
  JObj [("type", JStr ty); ("message", JStr message); ("timestamp", JNum stamp)].

Definition start_frame : string := frame_text "start" "开始处理" "1700000000".
Definition start_event : json := frame_value "start" "开始处理" 1700000000%float.
Definition step1_frame : string := frame_text "step" "分析模板" "1700000001".
Definition step1_event : json := frame_value "step" "分析模板" 1700000001%float.
Definition step2_frame : string := frame_text "step" "📄 [report.docx](/files/abc)" "1700000002".
Definition step2_event : json := frame_value "step" "📄 [report.docx](/files/abc)" 1700000002%float.
Definition complete_frame : string := frame_text "complete" "处理完成" "1700000003".
Definition complete_event : json := frame_value "complete" "处理完成" 1700000003%float.
Definition error_frame : string := frame_text "error" "处理失败" "1700000003".
Definition error_event : json := frame_value "error" "处理失败" 1700000003%float.
Definition restart_frame : string := frame_text "start" "开始处理" "1700000004".
Definition restart_event : json := frame_value "start" "开始处理" 1700000004%float.
Definition malformed_frame : string := "{type: step".

Definition sample_parse (event_data : string) : option json :=
  lookup_prop event_data
    [ (start_frame, start_event); (step1_frame, step1_event);
      (step2_frame, step2_event); (complete_frame, complete_event);
      (error_frame, error_event); (restart_frame, restart_event);
      ("null", JNull) ].

(** The component once mounted. *)
Definition mounted : World := onMounted setup.

Definition sample_run : list input :=
  [ Message start_frame; Message step1_frame; Message malformed_frame;
    Message complete_frame; Elapse 1000; Message restart_frame;
    Message step2_frame; Reset; Message error_frame ].

(** ** Reading a token off the head of a string

    What the regular expression [file_link] comes to, without the
    engine: used to reason about it. *)

(** [s] without its prefix [t], when it has it. *)
Fixpoint strip (t s : text) : option text :=
  match t, s with
  | [], _ => Some s
  | c :: t', x :: s' => if Ascii.eqb x c then strip t' s' else None
  | _ :: _, [] => None
  end.

(** The longest prefix of [s] without [c], and what follows it. *)
Fixpoint span_not (c : ascii) (s : text) : text * text :=
  match s with
  | [] => ([], [])
  | x :: s' =>
      if Ascii.eqb x c then ([], s)
      else let '(run, rest) := span_not c s' in (x :: run, rest)
  end.

Definition token_prefix (s : text) : option (text * text * text) :=
  match strip (chars "📄 [") s with
  | None => None
  | Some s1 =>
      match span_not "]" s1 with
      | ([], _) => None
      | (label, s2) =>
          match strip (chars "](") s2 with
          | None => None
          | Some s3 =>
              match span_not ")" s3 with
              | ([], _) => None
              | (path, s4) =>
                  match strip (chars ")") s4 with
                  | None => None
                  | Some rest => Some (label, path, rest)
                  end
              end
          end
      end
  end.

(** ** The template of the progress panel, and what else the proofs name *)

(** [v-if="steps.length > 0 || isProcessing"] on the panel. *)
Definition panel_visible (w : World) : bool :=
  (0 <? length (steps w))%nat || isProcessing w.

(** [v-if="isProcessing && !isComplete"] on the loading indicator. *)
Definition spinner_visible (w : World) : bool :=
  isProcessing w && negb (isComplete w).

(** The kind of a parsed frame, by its [type]. *)
Definition event_kind (data : json) : kind :=
  match get_type data with
  | Normal ty => kind_of_type ty
  | Throw => KIgnored
  end.

Definition is_stream_error (i : input) : bool :=
  match i with StreamError => true | _ => false end.

Definition is_close (c : call) : bool :=
  match c with Close _ => true | _ => false end.

(** One more frame of the backend, with a type the handler does not know. *)
Definition ping_event : json := JObj [("type", JStr "ping")].

(** The frames among the inputs that [JSON.parse] accepts, parsed, in
    arrival order. *)
Definition parsed_frames (JSON_parse : string -> option json)
  (inputs : list input) : list json :=
  omap (fun i => match i with
                 | Message event_data => JSON_parse event_data
                 | _ => None
                 end) inputs.

(** While [isProcessing] is set no terminal flag is, and the step list
    starts with the start event of the job. *)
Definition processing_ok (w : World) : Prop :=
  isProcessing w = true ->
  isComplete w = false /\ hasError w = false /\
  exists d rest, steps w = d :: rest /\
                 get_type d = Normal (Some (JStr "start")).

(** ** ChatBox: [formatContent]

    [src/components/ChatBox.vue].  Strings are sequences of the bytes of
    their UTF-8 text, as for [formatMessage]. *)

(** [hay.includes(needle)] *)
Fixpoint includes (needle hay : text) : bool :=
  match strip needle hay with
  | Some _ => true
  | None =>
      match hay with
      | [] => false
      | _ :: hay' => includes needle hay'
      end
  end.

(** [s.split(sep)] for a separator that is not empty: the pieces between
    the occurrences of [sep], found from left to right.  [cur] is the
    piece being read, last character first; [skip] counts the characters
    of the separator just found that are still to be passed over. *)
Fixpoint split_from (sep : text) (skip : nat) (cur : text) (s : text)
  : list text :=
  match s with
  | [] => [rev cur]
  | x :: s' =>
      match skip with
      | S n => split_from sep n cur s'
      | 0 =>
          match strip sep s with
          | Some _ => rev cur :: split_from sep (length sep - 1) [] s'
          | None => split_from sep 0 (x :: cur) s'
          end
      end
  end.

Definition split (sep s : text) : list text := split_from sep 0 [] s.

Definition bytes (l : list nat) : text := map ascii_of_nat l.

(** The white space and line terminators that [trim] removes, in UTF-8:
    U+0009 to U+000D, U+0020, U+00A0, U+1680, U+2000 to U+200A, U+2028,
    U+2029, U+202F, U+205F, U+3000 and U+FEFF. *)
Definition white_space : list text :=
  [ bytes [9]; bytes [10]; bytes [11]; bytes [12]; bytes [13]; bytes [32];
    bytes [194; 160];
    bytes [225; 154; 128];
    bytes [226; 128; 128]; bytes [226; 128; 129]; bytes [226; 128; 130];
    bytes [226; 128; 131]; bytes [226; 128; 132]; bytes [226; 128; 133];
    bytes [226; 128; 134]; bytes [226; 128; 135]; bytes [226; 128; 136];
    bytes [226; 128; 137]; bytes [226; 128; 138];
    bytes [226; 128; 168]; bytes [226; 128; 169]; bytes [226; 128; 175];
    bytes [226; 129; 159];
    bytes [227; 128; 128];
    bytes [239; 187; 191] ].

(** The length of the one of [tokens] that [s] starts with, 0 if none. *)
Fixpoint token_length (tokens : list text) (s : text) : nat :=
  match tokens with
  | [] => 0
  | t :: rest =>
      match strip t s with
      | Some _ => length t
      | None => token_length rest s
      end
  end.

(** [s] without the [tokens] it starts with. *)
Fixpoint drop_tokens (tokens : list text) (skip : nat) (s : text) : text :=
  match s with
  | [] => []
  | _ :: s' =>
      match skip with
      | S n => drop_tokens tokens n s'
      | 0 =>
          match token_length tokens s with
          | 0 => s
          | S n => drop_tokens tokens n s'
          end
      end
  end.

(** [s.trimStart()], [s.trimEnd()] and [s.trim()] *)
Definition trimStart (s : text) : text := drop_tokens white_space 0 s.
Definition trimEnd (s : text) : text :=
  rev (drop_tokens (map (@rev ascii) white_space) 0 (rev s)).
Definition trim (s : text) : text := trimEnd (trimStart s).

Definition fence : text := chars "```".

(** [/`([^`]+)`/] *)
Definition code_span : regex :=
  Seq (Lit "`") (Seq (Group 1 (Plus (NotLit "`"))) (Lit "`")).

Definition code_html : list piece :=
  [Text (chars "<code>"); Ref 1; Text (chars "</code>")].

(** [/\*\*([^*]+)\*\*/] *)
Definition strong_span : regex :=
  Seq (Lit "*") (Seq (Lit "*")
    (Seq (Group 1 (Plus (NotLit "*"))) (Seq (Lit "*") (Lit "*")))).

Definition strong_html : list piece :=
  [Text (chars "<strong>"); Ref 1; Text (chars "</strong>")].

Definition done_summary : text := chars "处理完成".

(** [formatContent], on the characters of the content. *)
Definition formatContent_text (content : text) : text :=
  let text0 :=
    if includes fence content then
      let parts := split fence content in
      let summary := trim (nth 0 parts []) in
      match summary with
      | [] => done_summary
      | _ => summary
      end
    else content in
  let text1 := replace_all file_link file_link_html text0 in
  replace_all strong_span strong_html
    (replace_all code_span code_html
       (replace_all (Lit nl) [Text (chars "<br>")] text1)).

(** [formatContent] *)
Definition formatContent (content : string) : string :=
  string_of_list_ascii (formatContent_text (chars content)).

Definition ping_frame : string :=
  "{" +:+ quoted "type" +:+ ":" +:+ quoted "ping" +:+ "}".

Definition sample_parse_ping (event_data : string) : option json :=
  if String.eqb event_data ping_frame then Some ping_event
  else sample_parse event_data.

(** ** ContentEditor

    The component of [ContentEditor.vue]: the list of content blocks the
    user edits, and the two functions that style a block by its style
    name. *)

(** A style of the analysed template, as the backend lists it. *)
Record style : Type := mkStyle {
  name : string;
  font_size_pt : option float
}.

(** [availableStyles] *)
Record styles : Type := mkStyles {
  headings : list style;
  body : list style
}.

(** A content block; [block_text] is its [text]. *)
Record block : Type := mkBlock {
  style_name : string;
  block_text : string
}.

Definition str_includes (needle hay : string) : bool :=
  includes (chars needle) (chars hay).

(** [getPlaceholder] *)
Definition getPlaceholder (styleName : string) : string :=
  if str_includes "Heading" styleName || str_includes "标题" styleName
     || str_includes "Title" styleName
  then "输入标题内容..."
  else "输入正文内容...".

(** [getPreviewClass] *)
Definition getPreviewClass (styleName : string) : string :=
  if str_includes "Heading 1" styleName || str_includes "标题 1" styleName
     || str_includes "Title" styleName
  then "preview-h1"
  else if str_includes "Heading 2" styleName || str_includes "标题 2" styleName
  then "preview-h2"
  else if str_includes "Heading" styleName || str_includes "标题" styleName
  then "preview-h3"
  else "preview-body".

(** [{ style_name: 'Heading 1', text: '' }] *)
Definition default_block : block := mkBlock "Heading 1" EmptyString.

(** [ref(props.modelValue.length > 0 ? props.modelValue : [...])] *)
Definition initial_blocks (modelValue : list block) : list block :=
  if (0 <? length modelValue)%nat then modelValue else [default_block].

(** [addBlock] *)
Definition addBlock (availableStyles : styles) (styleName : string)
  (contentBlocks : list block) : list block :=
  let defaultStyle :=
    if String.eqb styleName "Heading 1" &&
       (0 <? length (headings availableStyles))%nat
    then match headings availableStyles with
         | first :: _ => name first
         | [] => styleName
         end
    else if String.eqb styleName "Normal" &&
            (0 <? length (body availableStyles))%nat
    then match body availableStyles with
         | first :: _ => name first
         | [] => styleName
         end
    else styleName in
  contentBlocks ++ [mkBlock defaultStyle EmptyString].

(** [removeBlock]; [splice(index, 1)] removes nothing when [index] is
    past the end. *)
Definition removeBlock (index : nat) (contentBlocks : list block) : list block :=
  if (1 <? length contentBlocks)%nat
  then firstn index contentBlocks ++ skipn (S index) contentBlocks
  else contentBlocks.

(** The watcher of [props.modelValue]; [JSON_stringify] is the host's
    [JSON.stringify] on a list of blocks. *)
Definition onModelValue (JSON_stringify : list block -> string)
  (newVal contentBlocks : list block) : list block :=
  if String.eqb (JSON_stringify newVal) (JSON_stringify contentBlocks)
  then contentBlocks
  else if (0 <? length newVal)%nat then newVal else [default_block].

(** [v-model="block.text"] and [v-model="block.style_name"] on the
    block at [index]. *)
Definition set_block_text (index : nat) (t : string) (contentBlocks : list block)
  : list block :=
  alter (fun b => mkBlock (style_name b) t) index contentBlocks.

Definition set_block_style (index : nat) (s : string) (contentBlocks : list block)
  : list block :=
  alter (fun b => mkBlock s (block_text b)) index contentBlocks.

(** What the user and the parent can do to the editor. *)
Inductive editor_event : Type :=
| AddBlock (styleName : string)
| RemoveBlock (index : nat)
| SetText (index : nat) (t : string)
| SetStyle (index : nat) (s : string)
| ModelValue (newVal : list block).

Definition editor_step (JSON_stringify : list block -> string)
  (availableStyles : styles) (contentBlocks : list block) (e : editor_event)
  : list block :=
  match e with
  | AddBlock styleName => addBlock availableStyles styleName contentBlocks
  | RemoveBlock index => removeBlock index contentBlocks
  | SetText index t => set_block_text index t contentBlocks
  | SetStyle index s => set_block_style index s contentBlocks
  | ModelValue newVal => onModelValue JSON_stringify newVal contentBlocks
  end.

Definition editor_run (JSON_stringify : list block -> string)
  (availableStyles : styles) (contentBlocks : list block)
  (events : list editor_event) : list block :=
  fold_left (editor_step JSON_stringify availableStyles) events contentBlocks.

(** ** TemplateMode

    The three-step component of [TemplateMode.vue].  An [async] function
    is modelled in two parts: what it does up to its [await], and what
    it does with the outcome of the request. *)

(** A [File] the user picked; the component reads its name only. *)
Record file : Type := mkFile { file_name : string }.

(** The requests posted to the backend. *)
Inductive request : Type :=
| AnalyzeTemplate (template_file : file)
| ProcessStructured (template_path structured_content output_format : string).

(** What an awaited request comes to: a response, or an error with its
    [response?.data?.error] and its [message]. *)
Inductive outcome (A : Type) : Type :=
| Resolved (data : A)
| Rejected (response_error : option string) (message : string).
Arguments Resolved {A} data.
Arguments Rejected {A} response_error message.

(** [response.data] of [/api/analyze-template] *)
Record analysis : Type := mkAnalysis {
  success : bool;
  template_path : string;
  analysed_styles : styles;      (* styles *)
  error : option string
}.

(** [x || fallback] on strings: [undefined] and the empty string are falsy. *)
Definition or_else (x : option string) (fallback : string) : string :=
  match x with
  | Some EmptyString | None => fallback
  | Some s => s
  end.

Record TemplateMode : Type := mkTemplateMode {
  currentStep : nat;
  templateFile : option file;
  templatePath : string;
  templateStyles : styles;
  contentBlocks : list block;
  selectedFormat : string;
  previewVisible : bool;
  previewFile : option file;
  analyzing : bool;
  analyzeError : string;
  posted : list request;          (* axios.post calls, oldest first *)
  console : list string           (* console.error calls *)
}.




(** [templateStyles.value.headings[0]?.name || 'Heading 1'] *)
Definition defaultHeading (s : styles) : string :=
  or_else (option_map name (head (headings s))) "Heading 1".

(** [analyzeTemplate], from the [await] on. *)
Definition analyzeTemplate_resume (result : outcome analysis)
  (st : TemplateMode) : TemplateMode :=
  match result with
  | Resolved data =>
      if success data then
        mkTemplateMode 2 (templateFile st) (template_path data)
          (analysed_styles data)
          [mkBlock (defaultHeading (analysed_styles data)) EmptyString]
          (selectedFormat st) (previewVisible st) (previewFile st)
          false (analyzeError st) (posted st) (console st)
      else
        mkTemplateMode (currentStep st) (templateFile st) (templatePath st)
          (templateStyles st) (contentBlocks st) (selectedFormat st)
          (previewVisible st) (previewFile st)
          false (or_else (error data) "分析失败") (posted st) (console st)
  | Rejected response_error message =>
      mkTemplateMode (currentStep st) (templateFile st) (templatePath st)
        (templateStyles st) (contentBlocks st) (selectedFormat st)
        (previewVisible st) (previewFile st)
        false (or_else response_error message) (posted st) (console st)
  end.


(** [generateDocument], from the [await] on; the response is
    [response.data.success]. *)
Definition generateDocument_resume (result : outcome bool)
  (st : TemplateMode) : TemplateMode :=
  match result with
  | Resolved true =>
      mkTemplateMode 3 (templateFile st) (templatePath st)
        (templateStyles st) (contentBlocks st) (selectedFormat st)
        (previewVisible st) (previewFile st) (analyzing st) (analyzeError st)
        (posted st) (console st)
  | Resolved false => st
  | Rejected _ _ =>
      mkTemplateMode (currentStep st) (templateFile st) (templatePath st)
        (templateStyles st) (contentBlocks st) (selectedFormat st)
        (previewVisible st) (previewFile st) (analyzing st) (analyzeError st)
        (posted st) (console st ++ ["生成失败:"])
  end.

(** [resetAll] *)
Definition resetAll (st : TemplateMode) : TemplateMode :=
  mkTemplateMode 1 None EmptyString (mkStyles [] []) []
    (selectedFormat st) (previewVisible st) (previewFile st)
    (analyzing st) (analyzeError st) (posted st) (console st).

(** ** App: the configuration of the agent

    The root component, in its version with providers: [initAgent],
    [autoInitAgent], [logout] and what [onMounted] reads back from
    [localStorage].  [alert], [confirm] and [axios.post] are the
    host's: alerts and posted forms are logged, the answer to
    [confirm] and the outcome of a request are inputs. *)

Definition API_KEY_STORAGE : string := "convertagent_api_key".
Definition PROVIDER_STORAGE : string := "convertagent_provider".
Definition MODEL_STORAGE : string := "convertagent_model".

(** An entry of the chat log. *)
Record message : Type := mkMessage {
  role : string;
  content : string
}.

(** A provider, as [/api/providers] lists it. *)
Record provider : Type := mkProvider {
  provider_id : string;           (* id *)
  models : list string;
  default_model : string
}.

(** The fields appended to a [FormData], in order. *)
Definition form := list (string * string).


Record App : Type := mkApp {
  apiKey : string;
  agentReady : bool;
  loading : bool;
  messages : list message;
  providers : list provider;
  selectedProvider : string;
  selectedModel : string;
  localStorage : gmap string string;
  alerts : list string;           (* alert calls *)
  init_forms : list form;         (* forms posted to /api/init *)
  app_console : list string       (* console.error calls *)
}.

(** The form both initialisations build. *)
Definition init_form (key provider_name model : string) : form :=
  [("api_key", key); ("provider", provider_name)] ++
  match model with
  | EmptyString => []
  | _ => [("model", model)]
  end.

(** [initAgent], up to the [await]. *)
Definition initAgent_begin (st : App) : App :=
  match apiKey st with
  | EmptyString =>
      mkApp (apiKey st) (agentReady st) (loading st) (messages st)
        (providers st) (selectedProvider st) (selectedModel st)
        (localStorage st) (alerts st ++ ["请输入 API Key"])
        (init_forms st) (app_console st)
  | _ =>
      mkApp (apiKey st) (agentReady st) true (messages st)
        (providers st) (selectedProvider st) (selectedModel st)
        (localStorage st) (alerts st)
        (init_forms st ++
         [init_form (apiKey st) (selectedProvider st) (selectedModel st)])
        (app_console st)
  end.


(** [autoInitAgent], up to the [await]. *)
Definition autoInitAgent_begin (key provider_name model : string) (st : App)
  : App :=
  mkApp (apiKey st) (agentReady st) (loading st) (messages st)
    (providers st) (selectedProvider st) (selectedModel st)
    (localStorage st) (alerts st)
    (init_forms st ++ [init_form key provider_name model]) (app_console st).


(** [logout]; [confirmed] is the answer to [confirm]. *)
Definition logout (confirmed : bool) (st : App) : App :=
  if confirmed then
    mkApp EmptyString false (loading st) [] (providers st)
      "openai" EmptyString
      (delete MODEL_STORAGE
         (delete PROVIDER_STORAGE
            (delete API_KEY_STORAGE (localStorage st))))
      (alerts st) (init_forms st) (app_console st)
  else st.

(** The form [onMounted] has [autoInitAgent] post for what it finds in
    [localStorage]: none without a saved key, else the saved key with
    [savedProvider || 'openai'] and [savedModel || '']. *)
Definition restored_form (storage : gmap string string) : option form :=
  match storage !! API_KEY_STORAGE with
  | None | Some EmptyString => None
  | Some savedKey =>
      Some (init_form savedKey
              (or_else (storage !! PROVIDER_STORAGE) "openai")
              (or_else (storage !! MODEL_STORAGE) EmptyString))
  end.

(** * Properties *)

(** ** The handler, case by case *)

Section Handler.

Variable JSON_parse : string -> option json.

#[local] Abbreviation event := (is_event JSON_parse).
#[local] Abbreviation receive := (onmessage JSON_parse).

Lemma onmessage_dispatch event_data data ty w :
  JSON_parse event_data = Some data ->
  get_type data = Normal ty ->
  receive event_data w = dispatch ty data w.
Proof.
  intros Hparse Hty.
  unfold onmessage, try_message, parse.
  rewrite Hparse. cbn. rewrite Hty. reflexivity.
Qed.

Lemma onmessage_start event_data data w :
  event "start" event_data data ->
  receive event_data w =
  mkWorld [data] true false false
          (eventSource w) (timers w) (clock w) (calls w).
Proof.
  intros [Hparse Hty]. rewrite (onmessage_dispatch _ _ _ _ Hparse Hty).
  reflexivity.
Qed.

Lemma onmessage_step event_data data w :
  event "step" event_data data ->
  receive event_data w = push_step data w.
Proof.
  intros [Hparse Hty]. rewrite (onmessage_dispatch _ _ _ _ Hparse Hty).
  reflexivity.
Qed.

Lemma onmessage_complete event_data data w :
  event "complete" event_data data ->
  receive event_data w =
  mkWorld (steps w ++ [data]) false true (hasError w)
          (eventSource w) (timers w ++ [clock w + 3000]) (clock w)
          (calls w ++ [SetTimeout 3000]).
Proof.
  intros [Hparse Hty]. rewrite (onmessage_dispatch _ _ _ _ Hparse Hty).
  reflexivity.
Qed.

Lemma onmessage_error event_data data w :
  event "error" event_data data ->
  receive event_data w =
  close_if_connected
    (mkWorld (steps w ++ [data]) false (isComplete w) true
             (eventSource w) (timers w) (clock w) (calls w)).
Proof.
  intros [Hparse Hty]. rewrite (onmessage_dispatch _ _ _ _ Hparse Hty).
  reflexivity.
Qed.

Lemma onmessage_malformed event_data w :
  JSON_parse event_data = None ->
  receive event_data w = log_call (ConsoleError parse_failed) w.
Proof.
  intros Hparse. unfold onmessage, try_message, parse.
  rewrite Hparse. reflexivity.
Qed.

Lemma deliver_nil w : deliver JSON_parse w [] = w.
Proof. reflexivity. Qed.

Lemma deliver_cons w f frames :
  deliver JSON_parse w (f :: frames) = deliver JSON_parse (receive f w) frames.
Proof. reflexivity. Qed.

Lemma run_app w xs ys :
  run JSON_parse w (xs ++ ys) = run JSON_parse (run JSON_parse w xs) ys.
Proof. unfold run. apply fold_left_app. Qed.

(** ** Job lifecycles *)

(** C1: from the initial idle state (no steps, no flag set) the frames
    start, step, step, complete leave exactly these four events in the
    step list, in arrival order; [isProcessing] is true after the start
    and after each step and false after the complete, when [isComplete]
    is true and [hasError] false. *)
Theorem start_step_step_complete w f1 f2 f3 f4 e1 e2 e3 e4 :
  steps w = [] -> phase_of w = Idle ->
  event "start" f1 e1 -> event "step" f2 e2 ->
  event "step" f3 e3 -> event "complete" f4 e4 ->
  let w1 := deliver JSON_parse w [f1] in
  let w2 := deliver JSON_parse w [f1; f2] in
  let w3 := deliver JSON_parse w [f1; f2; f3] in
  let w4 := deliver JSON_parse w [f1; f2; f3; f4] in
  steps w4 = [e1; e2; e3; e4] /\
  isProcessing w1 = true /\ isProcessing w2 = true /\
  isProcessing w3 = true /\ isProcessing w4 = false /\
  isComplete w4 = true /\ hasError w4 = false.
Proof.
  intros _ _ H1 H2 H3 H4. cbv zeta.
  rewrite !deliver_cons, !deliver_nil.
  rewrite (onmessage_start _ _ _ H1).
  rewrite (onmessage_step _ _ _ H2), (onmessage_step _ _ _ H3).
  rewrite (onmessage_complete _ _ _ H4).
  cbn. repeat split; reflexivity.
Qed.

(** C2: whatever the state, once a job has ended with a complete event
    a following start event leaves a step list of length 1 that holds
    the new start event only, with [isProcessing] true and [isComplete]
    and [hasError] false. *)
Theorem restart_discards_steps w fc ec fs es :
  event "complete" fc ec -> event "start" fs es ->
  let w' := deliver JSON_parse w [fc; fs] in
  steps w' = [es] /\ length (steps w') = 1 /\
  isProcessing w' = true /\ isComplete w' = false /\ hasError w' = false.
Proof.
  intros Hc Hs. cbv zeta.
  rewrite !deliver_cons, deliver_nil.
  rewrite (onmessage_start _ _ _ Hs). cbn. repeat split; reflexivity.
Qed.

(** With the variable holding a connection, start, step, error make
    one host call in all: the [close] made by the error handler. *)
Lemma start_step_error w h f1 f2 f3 e1 e2 e3 :
  eventSource w = Some h ->
  event "start" f1 e1 -> event "step" f2 e2 -> event "error" f3 e3 ->
  let w2 := deliver JSON_parse w [f1; f2] in
  let w3 := deliver JSON_parse w [f1; f2; f3] in
  hasError w3 = true /\ isProcessing w3 = false /\
  steps w3 = [e1; e2; e3] /\
  calls w2 = calls w /\ calls w3 = calls w ++ [Close h] /\
  timers w3 = timers w /\ clock w3 = clock w.
Proof.
  intros Hh H1 H2 H3. cbv zeta.
  rewrite !deliver_cons, !deliver_nil.
  rewrite (onmessage_start _ _ _ H1), (onmessage_step _ _ _ H2).
  rewrite (onmessage_error _ _ _ H3).
  unfold close_if_connected. cbn. rewrite Hh. cbn.
  repeat split; reflexivity.
Qed.

(** C4: in the processing phase a frame that [JSON.parse] rejects,
    coming between two step events, changes neither the step list (so
    not its length) nor a flag, so the phase stays processing; the
    connection is not closed and no timer is set: the one effect is a
    [console.error].  Both steps are appended. *)
Theorem malformed_frame_discarded w f1 e1 bad f2 e2 :
  phase_of w = Processing ->
  event "step" f1 e1 -> JSON_parse bad = None -> event "step" f2 e2 ->
  let wa := deliver JSON_parse w [f1] in
  let wb := deliver JSON_parse w [f1; bad] in
  let wc := deliver JSON_parse w [f1; bad; f2] in
  steps wb = steps wa /\ length (steps wb) = length (steps wa) /\
  isProcessing wb = isProcessing wa /\ isComplete wb = isComplete wa /\
  hasError wb = hasError wa /\
  phase_of wa = Processing /\ phase_of wb = Processing /\
  phase_of wc = Processing /\
  eventSource wb = eventSource wa /\ timers wb = timers wa /\
  calls wb = calls wa ++ [ConsoleError parse_failed] /\
  (forall h, connection_open h wa -> connection_open h wb) /\
  steps wc = steps w ++ [e1; e2].
Proof.
  intros Hp H1 Hbad H2. cbv zeta.
  rewrite !deliver_cons, !deliver_nil.
  rewrite (onmessage_step _ _ _ H1), (onmessage_malformed _ _ Hbad).
  rewrite (onmessage_step _ _ _ H2).
  unfold phase_of, connection_open in *. cbn.
  rewrite <- app_assoc. cbn.
  repeat split; try reflexivity; try exact Hp.
  intros h Hopen Hin. apply in_app_or in Hin as [Hin|[Hin|[]]];
    [now apply Hopen|discriminate Hin].
Qed.

(** C10: a step event received in the idle phase is appended to the
    step list (so it is not dropped), while [isProcessing] stays false
    and the phase stays idle (so it does not start a job). *)
Theorem orphan_step_appended w f e :
  phase_of w = Idle -> event "step" f e ->
  let w' := receive f w in
  steps w' = steps w ++ [e] /\ isProcessing w' = false /\
  phase_of w' = Idle.
Proof.
  intros Hp He. cbv zeta. rewrite (onmessage_step _ _ _ He).
  unfold phase_of in *. cbn.
  destruct (hasError w), (isComplete w), (isProcessing w);
    try discriminate; repeat split; reflexivity.
Qed.

End Handler.

(** ** Reset and the badge *)

(** C8: in any state [reset] empties the step list and clears the three
    flags, and touches nothing else: the [eventSource] variable, the
    pending timers and the log of host calls are as before, so no
    connection is closed or opened. *)
Theorem reset_clears_display (w : World) :
  steps (reset w) = [] /\
  isProcessing (reset w) = false /\
  isComplete (reset w) = false /\
  hasError (reset w) = false /\
  eventSource (reset w) = eventSource w /\
  calls (reset w) = calls w /\
  timers (reset w) = timers w /\
  clock (reset w) = clock w.
Proof. repeat split; reflexivity. Qed.

Lemma badge_class_inj (p q : phase) : badge_class p = badge_class q -> p = q.
Proof. destruct p, q; cbn; intros H; try reflexivity; discriminate H. Qed.

(** C9: for every combination of the three flags the badge (its class and
    its text) is the one of a single phase among idle, processing,
    complete and error: the phase whose flag is set and that no phase
    with a set flag outranks, in the order
    error > complete > processing > idle; idle when no flag is set. *)
Theorem status_badge_priority (w : World) :
  exists p : phase,
    statusClass w = badge_class p /\
    statusText w = badge_text p /\
    flag w p = true /\
    (forall q, rank p < rank q -> flag w q = false) /\
    (forall q, statusClass w = badge_class q -> q = p).
Proof.
  exists (phase_of w).
  unfold statusClass, statusText, phase_of.
  destruct (hasError w) eqn:He, (isComplete w) eqn:Hc,
           (isProcessing w) eqn:Hp; cbn;
    (split; [reflexivity|]); (split; [reflexivity|]);
    (split; [first [assumption | reflexivity]|]);
    (split; [| intros q Hq; apply badge_class_inj; symmetry; exact Hq]);
    intros [] Hq; cbn in *; first [assumption | reflexivity | lia].
Qed.

(** ** What host calls leave alone *)

Lemma close_if_connected_refs w :
  steps (close_if_connected w) = steps w /\
  isProcessing (close_if_connected w) = isProcessing w /\
  isComplete (close_if_connected w) = isComplete w /\
  hasError (close_if_connected w) = hasError w /\
  eventSource (close_if_connected w) = eventSource w /\
  timers (close_if_connected w) = timers w /\
  clock (close_if_connected w) = clock w.
Proof.
  unfold close_if_connected. destruct (eventSource w) eqn:E; cbn;
    rewrite ?E; repeat split; reflexivity.
Qed.

Lemma fire_refs due now w :
  steps (fire due now w) = steps w /\
  isProcessing (fire due now w) = isProcessing w /\
  isComplete (fire due now w) = isComplete w /\
  hasError (fire due now w) = hasError w /\
  eventSource (fire due now w) = eventSource w /\
  timers (fire due now w) = timers w /\
  clock (fire due now w) = clock w.
Proof.
  revert w. induction due as [|d due IH]; intros w; cbn.
  - repeat split; reflexivity.
  - destruct (d <=? now)%nat; [|apply IH].
    destruct (IH (close_if_connected w)) as (-> & -> & -> & -> & -> & -> & ->).
    apply close_if_connected_refs.
Qed.

Lemma elapse_flags ms w :
  steps (elapse ms w) = steps w /\
  isProcessing (elapse ms w) = isProcessing w /\
  isComplete (elapse ms w) = isComplete w /\
  hasError (elapse ms w) = hasError w /\
  eventSource (elapse ms w) = eventSource w.
Proof.
  unfold elapse.
  destruct (fire_refs (timers w) (clock w + ms)
              (set_timers
                 (filter (fun d => (d <=? clock w + ms)%nat = false) (timers w))
                 (set_clock (clock w + ms) w)))
    as (-> & -> & -> & -> & -> & _).
  repeat split; reflexivity.
Qed.

(** The callbacks that are due run in turn; with the variable holding
    [h], each calls [close] on it. *)
Lemma fire_calls due now w h :
  eventSource w = Some h ->
  calls (fire due now w) =
  calls w ++ map (fun _ => Close h) (filter (fun d => (d <=? now)%nat = true) due).
Proof.
  revert w. induction due as [|d due IH]; intros w Hh; cbn.
  - now rewrite app_nil_r.
  - destruct (d <=? now)%nat eqn:E.
    + rewrite decide_True by reflexivity.
      rewrite IH by (now destruct (close_if_connected_refs w) as (_&_&_&_&->&_)).
      unfold close_if_connected. rewrite Hh. cbn.
      now rewrite <- app_assoc.
    + rewrite decide_False by discriminate. now apply IH.
Qed.

(** One pending delayed close: time passing before it is due only moves
    the clock; once it is due the callback runs and the timer is gone. *)
Lemma elapse_before_due ms d w :
  timers w = [d] -> clock w + ms < d ->
  elapse ms w = set_clock (clock w + ms) w.
Proof.
  intros Ht Hlt. unfold elapse. rewrite Ht.
  assert ((d <=? clock w + ms)%nat = false) as E by (apply Nat.leb_gt; lia).
  rewrite filter_cons, filter_nil, decide_True by exact E.
  cbn [fire]. rewrite E.
  destruct w; cbn in *; subst; reflexivity.
Qed.

Lemma elapse_when_due ms d w :
  timers w = [d] -> d <= clock w + ms ->
  elapse ms w = close_if_connected (set_timers [] (set_clock (clock w + ms) w)).
Proof.
  intros Ht Hle. unfold elapse. rewrite Ht.
  assert ((d <=? clock w + ms)%nat = true) as E by (apply Nat.leb_le; lia).
  rewrite filter_cons, filter_nil, decide_False by (rewrite E; discriminate).
  cbn [fire]. rewrite E. reflexivity.
Qed.

Section Streams.

Variable JSON_parse : string -> option json.

#[local] Abbreviation event := (is_event JSON_parse).
#[local] Abbreviation receive := (onmessage JSON_parse).

(** The flags after a frame, by the kind of the frame. *)
Lemma onmessage_flags f w :
  match kind_of JSON_parse f with
  | KStart => isComplete (receive f w) = false /\ hasError (receive f w) = false
  | KComplete => isComplete (receive f w) = true /\
                 hasError (receive f w) = hasError w
  | KError => isComplete (receive f w) = isComplete w /\
              hasError (receive f w) = true
  | KStep | KIgnored =>
      isComplete (receive f w) = isComplete w /\
      hasError (receive f w) = hasError w
  end.
Proof.
  unfold kind_of, onmessage, try_message, parse.
  destruct (JSON_parse f) as [data|]; cbn; [|split; reflexivity].
  destruct (get_type data) as [ty|]; cbn; [|split; reflexivity].
  unfold kind_of_type, dispatch.
  destruct ty as [[| | |t| |]|]; try (split; reflexivity).
  destruct (String.eqb t "start"); [split; reflexivity|].
  destruct (String.eqb t "step"); [split; reflexivity|].
  destruct (String.eqb t "complete"); [split; reflexivity|].
  destruct (String.eqb t "error"); [|split; reflexivity].
  match goal with
  | |- context [close_if_connected ?x] =>
      destruct (close_if_connected_refs x) as (_ & _ & -> & -> & _)
  end.
  split; reflexivity.
Qed.

Lemma exclusive_run inputs : forall in_job w,
  exclusive in_job w ->
  well_formed JSON_parse in_job inputs = true ->
  isComplete (run JSON_parse w inputs) &&
  hasError (run JSON_parse w inputs) = false.
Proof.
  induction inputs as [|i inputs IH]; intros in_job w [Hjob Hex] Hwf.
  - exact Hex.
  - change (run JSON_parse w (i :: inputs))
      with (run JSON_parse (step JSON_parse w i) inputs).
    destruct i as [f| | | |ms]; cbn [well_formed step] in *.
    + pose proof (onmessage_flags f w) as Hf.
      destruct (kind_of JSON_parse f), in_job; cbn in Hwf;
        try discriminate Hwf;
        (eapply IH; [|exact Hwf]); destruct Hf as [Hc He];
        try (destruct Hjob as [Hc0 He0]; [reflexivity|]);
        split; rewrite ?Hc, ?He, ?Hc0, ?He0; intros;
        try discriminate; auto using andb_false_r.
    + apply (IH in_job); [|exact Hwf].
      assert (isComplete (onerror w) = isComplete w /\
              hasError (onerror w) = hasError w) as [Hc He]
        by (unfold onerror; cbn; destruct (eventSource w); split; reflexivity).
      split; rewrite Hc, He; assumption.
    + apply (IH in_job); [|exact Hwf].
      split; [split|]; reflexivity.
    + apply (IH in_job); [|exact Hwf].
      unfold onUnmounted.
      destruct (close_if_connected_refs w) as (_ & _ & Hc & He & _).
      split; rewrite Hc, He; assumption.
    + apply (IH in_job); [|exact Hwf].
      destruct (elapse_flags ms w) as (_ & _ & Hc & He & _).
      split; rewrite Hc, He; assumption.
Qed.

Lemma well_formed_prefix pre : forall in_job suf,
  well_formed JSON_parse in_job (pre ++ suf) = true ->
  well_formed JSON_parse in_job pre = true.
Proof.
  induction pre as [|i pre IH]; intros in_job suf H; [reflexivity|].
  destruct i as [f| | | |ms]; cbn in *; eauto.
  destruct (job_step in_job (kind_of JSON_parse f)); eauto.
Qed.

(** C5: along every sequence of inputs whose frames obey the stream
    invariant (a start only when no job is open, a complete or an error
    only when one is), in every state the mounted component passes
    through, [isComplete] and [hasError] are not both true. *)
Theorem terminal_flags_exclusive inputs reached :
  well_formed JSON_parse false inputs = true ->
  reached `prefix_of` inputs ->
  let w := run JSON_parse mounted reached in
  ~ (isComplete w = true /\ hasError w = true).
Proof.
  intros Hwf [suf ->] w [Hc He].
  assert (isComplete w && hasError w = false) as H.
  { apply (exclusive_run reached false mounted).
    - split; [discriminate|reflexivity].
    - exact (well_formed_prefix _ _ _ Hwf). }
  rewrite Hc, He in H. discriminate H.
Qed.

(** ** The connection *)

Lemma onmessage_eventSource f w : eventSource (receive f w) = eventSource w.
Proof.
  unfold onmessage, try_message, parse.
  destruct (JSON_parse f) as [data|]; cbn; [|reflexivity].
  destruct (get_type data) as [ty|]; cbn; [|reflexivity].
  unfold dispatch.
  destruct ty as [[| | |t| |]|]; try reflexivity.
  destruct (String.eqb t "start"); [reflexivity|].
  destruct (String.eqb t "step"); [reflexivity|].
  destruct (String.eqb t "complete"); [reflexivity|].
  destruct (String.eqb t "error"); [|reflexivity].
  match goal with
  | |- context [close_if_connected ?x] =>
      destruct (close_if_connected_refs x) as (_ & _ & _ & _ & -> & _)
  end.
  reflexivity.
Qed.

Lemma close_if_connected_calls w c :
  In c (calls w) -> In c (calls (close_if_connected w)).
Proof.
  unfold close_if_connected. destruct (eventSource w); cbn; [|tauto].
  intros H. apply in_or_app. now left.
Qed.

Lemma fire_keeps_calls due now : forall w c,
  In c (calls w) -> In c (calls (fire due now w)).
Proof.
  induction due as [|d due IH]; intros w c H; cbn; [exact H|].
  destruct (d <=? now)%nat; apply IH; [|exact H].
  now apply close_if_connected_calls.
Qed.

(** Host calls are only ever added to the log. *)
Lemma step_keeps_calls i w c :
  In c (calls w) -> In c (calls (step JSON_parse w i)).
Proof.
  intros H. destruct i as [f| | | |ms]; cbn [step].
  - unfold onmessage, try_message, parse.
    destruct (JSON_parse f) as [data|]; cbn; [|apply in_or_app; now left].
    destruct (get_type data) as [ty|]; cbn; [|apply in_or_app; now left].
    unfold dispatch.
    destruct ty as [[| | |t| |]|]; try exact H.
    destruct (String.eqb t "start"); [exact H|].
    destruct (String.eqb t "step"); [exact H|].
    destruct (String.eqb t "complete"); [cbn; apply in_or_app; now left|].
    destruct (String.eqb t "error"); [|exact H].
    apply close_if_connected_calls. exact H.
  - unfold onerror. cbn. destruct (eventSource w); cbn.
    + apply in_or_app; left. apply in_or_app; now left.
    + apply in_or_app; now left.
  - exact H.
  - now apply close_if_connected_calls.
  - unfold elapse. now apply fire_keeps_calls.
Qed.

(** The variable of the mounted component holds the connection it
    opened, handle 0, until [onerror] has closed it. *)
Lemma eventSource_until_closed inputs :
  let w := run JSON_parse mounted inputs in
  eventSource w = Some 0 \/ In (Close 0) (calls w).
Proof.
  induction inputs as [|i inputs IH] using rev_ind; [left; reflexivity|].
  rewrite run_app. cbv zeta in *.
  set (w := run JSON_parse mounted inputs) in *.
  change (run JSON_parse w [i]) with (step JSON_parse w i).
  destruct IH as [IH|IH]; [|right; now apply step_keeps_calls].
  destruct i as [f| | | |ms]; cbn [step].
  - left. now rewrite onmessage_eventSource.
  - right. unfold onerror. cbn. rewrite IH. cbn.
    apply in_or_app; right. now left.
  - left. exact IH.
  - left. unfold onUnmounted.
    now destruct (close_if_connected_refs w) as (_ & _ & _ & _ & -> & _).
  - left. now destruct (elapse_flags ms w) as (_ & _ & _ & _ & ->).
Qed.

(** C3: in every state the mounted component can be in while its
    connection is open, the frames start, step, error leave the error
    event appended after the other two, [hasError] true and
    [isProcessing] false; the three handlers make one host call in
    all, the [close] of the connection, made by the error handler
    itself: no timer is set and no time passes. *)
Theorem error_closes_at_once inputs f1 f2 f3 e1 e2 e3 :
  let w := run JSON_parse mounted inputs in
  connection_open 0 w ->
  event "start" f1 e1 -> event "step" f2 e2 -> event "error" f3 e3 ->
  let w2 := deliver JSON_parse w [f1; f2] in
  let w3 := deliver JSON_parse w [f1; f2; f3] in
  hasError w3 = true /\ isProcessing w3 = false /\
  steps w3 = [e1; e2; e3] /\
  calls w2 = calls w /\ calls w3 = calls w ++ [Close 0] /\
  timers w3 = timers w /\ clock w3 = clock w.
Proof.
  intros w Hopen H1 H2 H3.
  apply (start_step_error JSON_parse w 0 f1 f2 f3 e1 e2 e3); try assumption.
  destruct (eventSource_until_closed inputs) as [H|H]; [exact H|].
  contradiction.
Qed.

(** ** The delayed close *)

(** C6, as the code has it: no start event cancels or guards the
    delayed close.  With the variable holding a connection and no
    delayed close pending, a complete event, a start event less than 3
    seconds later and the rest of the 3 seconds leave the new job
    processing, with its start event as the only step, and the
    connection closed by the callback of the finished job: the host
    calls are the [setTimeout] and then the [close]. *)
Theorem stale_close_fires w h fc ec d1 fs es d2 :
  eventSource w = Some h -> timers w = [] ->
  event "complete" fc ec -> event "start" fs es ->
  d1 < 3000 -> 3000 <= d1 + d2 ->
  let w' := run JSON_parse w
              [Message fc; Elapse d1; Message fs; Elapse d2] in
  calls w' = calls w ++ [SetTimeout 3000; Close h] /\
  isProcessing w' = true /\ steps w' = [es] /\ timers w' = [].
Proof.
  intros Hh Ht Hc Hs Hd1 Hd2.
  assert (calls (run JSON_parse w
                   [Message fc; Elapse d1; Message fs; Elapse d2]) =
          calls w ++ [SetTimeout 3000; Close h] /\
          isProcessing (run JSON_parse w
                   [Message fc; Elapse d1; Message fs; Elapse d2]) = true /\
          steps (run JSON_parse w
                   [Message fc; Elapse d1; Message fs; Elapse d2]) = [es] /\
          timers (run JSON_parse w
                   [Message fc; Elapse d1; Message fs; Elapse d2]) = [])
    as (Hcalls & Hp & Hst & Htm).
  { unfold run. cbn [fold_left step].
    rewrite (onmessage_complete _ _ _ _ Hc). rewrite Ht. cbn [app].
    rewrite (elapse_before_due d1 (clock w + 3000)) by (cbn [timers clock]; first [reflexivity | lia]).
    rewrite (onmessage_start _ _ _ _ Hs). cbn [eventSource timers clock calls set_clock].
    rewrite (elapse_when_due d2 (clock w + 3000)) by (cbn [timers clock]; first [reflexivity | lia]).
    unfold close_if_connected. cbn. rewrite Hh. cbn.
    rewrite <- app_assoc. repeat split; reflexivity. }
  cbv zeta. repeat split; assumption.
Qed.

End Streams.

(** ** The sample frames, run through the handlers *)

Lemma sample_events :
  is_event sample_parse "start" start_frame start_event /\
  is_event sample_parse "step" step1_frame step1_event /\
  is_event sample_parse "step" step2_frame step2_event /\
  is_event sample_parse "complete" complete_frame complete_event /\
  is_event sample_parse "error" error_frame error_event /\
  is_event sample_parse "start" restart_frame restart_event /\
  sample_parse malformed_frame = None.
Proof. repeat split; vm_compute; reflexivity. Qed.

Lemma mounted_open : connection_open 0 mounted.
Proof. intros [H|[]]. discriminate H. Qed.

Lemma start_step_step_complete_witness :
  let frames := [start_frame; step1_frame; step2_frame; complete_frame] in
  steps (deliver sample_parse mounted frames) =
    [start_event; step1_event; step2_event; complete_event] /\
  isProcessing (deliver sample_parse mounted (take 1 frames)) = true /\
  isProcessing (deliver sample_parse mounted (take 2 frames)) = true /\
  isProcessing (deliver sample_parse mounted (take 3 frames)) = true /\
  isProcessing (deliver sample_parse mounted frames) = false /\
  isComplete (deliver sample_parse mounted frames) = true /\
  hasError (deliver sample_parse mounted frames) = false.
Proof.
  apply (start_step_step_complete sample_parse mounted
           start_frame step1_frame step2_frame complete_frame
           start_event step1_event step2_event complete_event);
    first [reflexivity | split; vm_compute; reflexivity].
Defined.

Lemma restart_discards_steps_witness :
  let w := deliver sample_parse mounted [start_frame; step1_frame] in
  let w' := deliver sample_parse w [complete_frame; restart_frame] in
  steps w' = [restart_event] /\ length (steps w') = 1 /\
  isProcessing w' = true /\ isComplete w' = false /\ hasError w' = false.
Proof.
  apply (restart_discards_steps sample_parse
           (deliver sample_parse mounted [start_frame; step1_frame])
           complete_frame complete_event restart_frame restart_event);
    split; vm_compute; reflexivity.
Defined.

Lemma error_closes_at_once_witness :
  let w2 := deliver sample_parse mounted [start_frame; step1_frame] in
  let w3 := deliver sample_parse mounted [start_frame; step1_frame; error_frame] in
  hasError w3 = true /\ isProcessing w3 = false /\
  steps w3 = [start_event; step1_event; error_event] /\
  calls w2 = calls mounted /\ calls w3 = calls mounted ++ [Close 0] /\
  timers w3 = timers mounted /\ clock w3 = clock mounted.
Proof.
  apply (error_closes_at_once sample_parse []
           start_frame step1_frame error_frame
           start_event step1_event error_event);
    first [exact mounted_open | split; vm_compute; reflexivity].
Defined.

Lemma malformed_frame_discarded_witness :
  let w := deliver sample_parse mounted [start_frame] in
  let wa := deliver sample_parse w [step1_frame] in
  let wb := deliver sample_parse w [step1_frame; malformed_frame] in
  let wc := deliver sample_parse w [step1_frame; malformed_frame; step2_frame] in
  steps wb = steps wa /\ length (steps wb) = length (steps wa) /\
  isProcessing wb = isProcessing wa /\ isComplete wb = isComplete wa /\
  hasError wb = hasError wa /\
  phase_of wa = Processing /\ phase_of wb = Processing /\
  phase_of wc = Processing /\
  eventSource wb = eventSource wa /\ timers wb = timers wa /\
  calls wb = calls wa ++ [ConsoleError parse_failed] /\
  (forall h, connection_open h wa -> connection_open h wb) /\
  steps wc = steps w ++ [step1_event; step2_event].
Proof.
  apply (malformed_frame_discarded sample_parse
           (deliver sample_parse mounted [start_frame])
           step1_frame step1_event malformed_frame step2_frame step2_event);
    first [reflexivity | split; vm_compute; reflexivity].
Defined.

Lemma orphan_step_appended_witness :
  let w' := onmessage sample_parse step1_frame mounted in
  steps w' = steps mounted ++ [step1_event] /\ isProcessing w' = false /\
  phase_of w' = Idle.
Proof.
  apply (orphan_step_appended sample_parse mounted step1_frame step1_event);
    first [reflexivity | split; vm_compute; reflexivity].
Defined.

Lemma terminal_flags_exclusive_witness :
  let w := run sample_parse mounted sample_run in
  ~ (isComplete w = true /\ hasError w = true).
Proof.
  apply (terminal_flags_exclusive sample_parse sample_run sample_run).
  - vm_compute. reflexivity.
  - exists []. symmetry. apply app_nil_r.
Defined.

Lemma stale_close_fires_witness :
  let w' := run sample_parse mounted
              [Message complete_frame; Elapse 1000;
               Message restart_frame; Elapse 2000] in
  calls w' = calls mounted ++ [SetTimeout 3000; Close 0] /\
  isProcessing w' = true /\ steps w' = [restart_event] /\ timers w' = [].
Proof.
  apply (stale_close_fires sample_parse mounted 0
           complete_frame complete_event 1000
           restart_frame restart_event 2000);
    first [reflexivity | lia | split; vm_compute; reflexivity].
Defined.

(** C6 as the specification words it fails on the code: a complete event
    on the open connection of the mounted component, a start event one
    second later, and two more seconds; the callback of the finished job
    has closed the connection the new job is using. *)
Lemma stale_close_counterexample :
  is_event sample_parse "complete" complete_frame complete_event /\
  is_event sample_parse "start" restart_frame restart_event /\
  eventSource mounted = Some 0 /\ connection_open 0 mounted /\
  ~ stale_close_guarded sample_parse mounted 0
      complete_frame 1000 restart_frame 2000.
Proof.
  repeat split; try (vm_compute; reflexivity); try exact mounted_open.
  intros Hopen. apply Hopen. vm_compute. right. right. now left.
Qed.

(** ** The regular expressions of [formatMessage] *)

Lemma strip_app t s : strip t (t ++ s) = Some s.
Proof.
  induction t as [|c t IH]; cbn; [reflexivity|].
  now rewrite Ascii.eqb_refl.
Qed.

Lemma strip_Some t : forall s s', strip t s = Some s' -> s = t ++ s'.
Proof.
  induction t as [|c t IH]; intros s s' H; cbn in *.
  - now injection H.
  - destruct s as [|x s]; [discriminate|].
    destruct (Ascii.eqb x c) eqn:E; [|discriminate].
    apply Ascii.eqb_eq in E. subst x. f_equal. now apply IH.
Qed.

Lemma span_not_app c s : s = (span_not c s).1 ++ (span_not c s).2.
Proof.
  induction s as [|x s IH]; cbn; [reflexivity|].
  destruct (Ascii.eqb x c); [reflexivity|].
  destruct (span_not c s) as [run rest]. cbn in *. now f_equal.
Qed.

Lemma span_not_run c s : ~ In c (span_not c s).1.
Proof.
  induction s as [|x s IH]; cbn; [tauto|].
  destruct (Ascii.eqb x c) eqn:E; [cbn; tauto|].
  destruct (span_not c s) as [run rest]. cbn in *.
  intros [->|H]; [|tauto].
  now rewrite Ascii.eqb_refl in E.
Qed.

Lemma span_not_rest c s :
  (span_not c s).2 = [] \/ exists rest, (span_not c s).2 = c :: rest.
Proof.
  induction s as [|x s IH]; cbn; [now left|].
  destruct (Ascii.eqb x c) eqn:E.
  - apply Ascii.eqb_eq in E. subst x. right. now exists s.
  - destruct (span_not c s) as [run rest]. exact IH.
Qed.

Lemma span_not_found c run rest :
  ~ In c run -> span_not c (run ++ c :: rest) = (run, c :: rest).
Proof.
  induction run as [|x run IH]; intros Hc; cbn.
  - now rewrite Ascii.eqb_refl.
  - destruct (Ascii.eqb x c) eqn:E.
    + apply Ascii.eqb_eq in E. subst x. exfalso. apply Hc. now left.
    + rewrite IH; [reflexivity|]. intros H. apply Hc. now right.
Qed.

Lemma consumed_app run rest : consumed (run ++ rest) rest = run.
Proof.
  unfold consumed. rewrite length_app.
  replace (length run + length rest - length rest) with (length run) by lia.
  now rewrite firstn_app, Nat.sub_diag, firstn_all, app_nil_r.
Qed.

Section Engine.

Context {A : Type}.
Implicit Types k : text -> captures -> option A.

Lemma rmatch_lits t r caps k : forall s,
  rmatch (lits t r) s caps k =
  match strip t s with
  | Some s' => rmatch r s' caps k
  | None => None
  end.
Proof.
  induction t as [|c t IH]; intros s; cbn; [reflexivity|].
  destruct s as [|x s]; [reflexivity|].
  destruct (Ascii.eqb x c); [apply IH|reflexivity].
Qed.

(** A greedy [[^c]+] followed by something that cannot start with
    another character than [c] takes the longest run without [c]:
    giving back characters cannot help. *)
Lemma iterate_notlit c caps k :
  (forall x s', Ascii.eqb x c = false -> k (x :: s') caps = None) ->
  forall s fuel, length s < fuel ->
  iterate (rmatch (NotLit c)) k fuel s caps =
  match span_not c s with
  | ([], _) => None
  | (_, rest) => k rest caps
  end.
Proof.
  intros Hk. remember (rmatch (A:=A) (NotLit c)) as body eqn:Hbody.
  assert (forall s caps0 k0, body s caps0 k0 =
            match s with
            | x :: s' => if Ascii.eqb x c then None else k0 s' caps0
            | [] => None
            end) as Hstep by (intros; subst body; reflexivity).
  clear Hbody.
  induction s as [|x s IH]; intros fuel Hfuel;
    (destruct fuel as [|fuel]; [cbn in Hfuel; lia|]);
    cbn [iterate span_not]; rewrite Hstep; [reflexivity|].
  destruct (Ascii.eqb x c) eqn:E; [reflexivity|].
  assert ((length s <? length (x :: s))%nat = true) as ->
    by (apply Nat.ltb_lt; cbn; lia).
  rewrite IH by (cbn in Hfuel; lia).
  pose proof (span_not_app c s) as Happ.
  pose proof (span_not_run c s) as Hrun.
  destruct (span_not c s) as [run rest]. cbn in Happ, Hrun.
  destruct run as [|y run]; cbn in *.
  - now subst s.
  - destruct (k rest caps) eqn:Ek; [reflexivity|]. cbn.
    subst s. apply Hk. apply Ascii.eqb_neq. intros ->. apply Hrun. now left.
Qed.

Lemma rmatch_seq r1 r2 s caps k :
  rmatch (Seq r1 r2) s caps k =
  rmatch r1 s caps (fun s1 caps1 => rmatch r2 s1 caps1 k).
Proof. reflexivity. Qed.

Lemma rmatch_group i r s caps k :
  rmatch (Group i r) s caps k =
  rmatch r s caps (fun s1 caps1 => k s1 ((i, consumed s s1) :: caps1)).
Proof. reflexivity. Qed.

Lemma rmatch_plus r s caps k :
  rmatch (Plus r) s caps k = iterate (rmatch r) k (S (length s)) s caps.
Proof. reflexivity. Qed.

Lemma rmatch_lit c s caps k :
  rmatch (Lit c) s caps k =
  match s with
  | x :: s' => if Ascii.eqb x c then k s' caps else None
  | [] => None
  end.
Proof. reflexivity. Qed.

(** A captured [[^c]+] followed by [c]. *)
Lemma rmatch_group_run i c r s caps k :
  rmatch (Seq (Group i (Plus (NotLit c))) (Seq (Lit c) r)) s caps k =
  match span_not c s with
  | ([], _) => None
  | (run, x :: rest) => rmatch r rest ((i, run) :: caps) k
  | (_, []) => None
  end.
Proof.
  rewrite rmatch_seq, rmatch_group, rmatch_plus.
  rewrite iterate_notlit; [| |lia].
  - pose proof (span_not_app c s) as Happ.
    pose proof (span_not_rest c s) as Hrest.
    destruct (span_not c s) as [run rest]. cbn in Happ, Hrest.
    destruct run as [|y run]; [reflexivity|].
    rewrite rmatch_seq, rmatch_lit.
    destruct Hrest as [->|[rest' ->]]; [reflexivity|].
    rewrite Ascii.eqb_refl. subst s.
    now rewrite (consumed_app (y :: run) (c :: rest')).
  - intros x s' E. rewrite rmatch_seq, rmatch_lit. now rewrite E.
Qed.

End Engine.

(** [file_link] at the head of a string reads a token off it, and
    captures its label and its path. *)
Lemma exec_file_link s :
  exec file_link s =
  match token_prefix s with
  | Some (label, path, rest) => Some ([(2, path); (1, label)], rest)
  | None => None
  end.
Proof.
  unfold exec, file_link, token_prefix.
  rewrite rmatch_lits.
  destruct (strip (chars "📄 [") s) as [s1|]; [|reflexivity].
  change (chars "](") with (["]"%char] ++ ["("%char]).
  change (lits (["]"%char] ++ ["("%char]) ?r)
    with (Seq (Lit "]") (Seq (Lit "(") r)).
  rewrite rmatch_group_run.
  pose proof (span_not_rest "]" s1) as H1.
  destruct (span_not "]" s1) as [label s2]. cbn in H1.
  destruct label as [|l0 label]; [reflexivity|].
  destruct H1 as [->|[s2' ->]]; [reflexivity|].
  cbn [strip app]. rewrite Ascii.eqb_refl.
  rewrite rmatch_seq, rmatch_lit.
  destruct s2' as [|x s3]; [reflexivity|].
  destruct (Ascii.eqb x "(") eqn:E; [|reflexivity].
  rewrite rmatch_seq, rmatch_group, rmatch_plus.
  rewrite iterate_notlit; [| |lia].
  - pose proof (span_not_app ")" s3) as Happ.
    pose proof (span_not_rest ")" s3) as H2.
    destruct (span_not ")" s3) as [path s4]. cbn in Happ, H2.
    destruct path as [|p0 path]; [reflexivity|].
    rewrite rmatch_lit.
    destruct H2 as [->|[rest ->]]; [reflexivity|].
    cbn [strip]. rewrite Ascii.eqb_refl. subst s3.
    now rewrite (consumed_app (p0 :: path) (")"%char :: rest)).
  - intros y s' Ey. rewrite rmatch_lit. now rewrite Ey.
Qed.

Lemma token_prefix_token label path rest :
  is_label label -> is_path path ->
  token_prefix (token label path ++ rest) = Some (label, path, rest).
Proof.
  intros [Hl0 Hl] [Hp0 Hp]. unfold token_prefix, token.
  rewrite <- !app_assoc, strip_app.
  change (chars "](" ++ ?x) with ("]"%char :: "("%char :: x).
  rewrite (span_not_found "]" label) by exact Hl.
  destruct label as [|l0 label]; [contradiction|].
  cbn [strip chars list_ascii_of_string]. rewrite !Ascii.eqb_refl.
  change ([")"%char] ++ rest) with (")"%char :: rest).
  rewrite (span_not_found ")" path) by exact Hp.
  destruct path as [|p0 path]; [contradiction|].
  cbn [strip]. now rewrite Ascii.eqb_refl.
Qed.

Lemma token_prefix_Some s label path rest :
  token_prefix s = Some (label, path, rest) ->
  is_label label /\ is_path path /\ s = token label path ++ rest.
Proof.
  unfold token_prefix. intros H.
  destruct (strip (chars "📄 [") s) as [s1|] eqn:E1; [|discriminate].
  apply strip_Some in E1.
  pose proof (span_not_app "]" s1) as A1.
  pose proof (span_not_run "]" s1) as R1.
  destruct (span_not "]" s1) as [l s2]. cbn in A1, R1.
  destruct l as [|l0 l]; [discriminate|].
  destruct (strip (chars "](") s2) as [s3|] eqn:E2; [|discriminate].
  apply strip_Some in E2.
  pose proof (span_not_app ")" s3) as A2.
  pose proof (span_not_run ")" s3) as R2.
  destruct (span_not ")" s3) as [p s4]. cbn in A2, R2.
  destruct p as [|p0 p]; [discriminate|].
  destruct (strip (chars ")") s4) as [r|] eqn:E3; [|discriminate].
  apply strip_Some in E3.
  injection H as <- <- <-.
  repeat split; try discriminate; try assumption.
  unfold token. rewrite <- !app_assoc.
  now rewrite <- E3, <- A2, <- E2, <- A1.
Qed.

Lemma token_prefix_None s : token_prefix s = None -> ~ token_at_head s.
Proof.
  intros H (label & path & rest & Hl & Hp & ->).
  rewrite token_prefix_token in H by assumption. discriminate H.
Qed.

(** ** Global replacement *)

Lemma replace_from_skip r tpl pre s :
  replace_from r tpl (length pre) (pre ++ s) = replace_from r tpl 0 s.
Proof. induction pre as [|x pre IH]; cbn; [reflexivity|exact IH]. Qed.

Lemma replace_all_match r tpl pre rest caps :
  pre <> [] -> exec r (pre ++ rest) = Some (caps, rest) ->
  replace_all r tpl (pre ++ rest) = expand tpl caps ++ replace_all r tpl rest.
Proof.
  intros Hpre Hexec. unfold replace_all.
  destruct pre as [|x pre]; [contradiction|].
  change ((x :: pre) ++ rest) with (x :: pre ++ rest) in *.
  cbn [replace_from]. rewrite Hexec.
  replace (length (x :: pre ++ rest) - length rest) with (S (length pre))
    by (cbn; rewrite length_app; lia).
  now rewrite replace_from_skip.
Qed.

Lemma replace_all_nomatch r tpl x s :
  exec r (x :: s) = None ->
  replace_all r tpl (x :: s) = x :: replace_all r tpl s.
Proof. intros Hexec. unfold replace_all. cbn [replace_from]. now rewrite Hexec. Qed.

Lemma expand_file_link label path :
  expand file_link_html [(2, path); (1, label)] =
  link_html (chars backend_origin) label path.
Proof.
  unfold file_link_html, link_html. cbn [expand capture Nat.eqb].
  rewrite <- !app_assoc. cbn [app]. rewrite <- !app_assoc.
  rewrite ?app_nil_r. reflexivity.
Qed.

Lemma token_nonempty label path : token label path <> [].
Proof. unfold token. cbn. discriminate. Qed.

Lemma replace_links_token label path rest :
  is_label label -> is_path path ->
  replace_all file_link file_link_html (token label path ++ rest) =
  link_html (chars backend_origin) label path ++
  replace_all file_link file_link_html rest.
Proof.
  intros Hl Hp. rewrite <- expand_file_link.
  apply replace_all_match; [apply token_nonempty|].
  rewrite exec_file_link. now rewrite token_prefix_token.
Qed.

Lemma replace_links_char c s :
  ~ token_at_head (c :: s) ->
  replace_all file_link file_link_html (c :: s) =
  c :: replace_all file_link file_link_html s.
Proof.
  intros Hno. apply replace_all_nomatch. rewrite exec_file_link.
  destruct (token_prefix (c :: s)) as [[[label path] rest]|] eqn:E;
    [|reflexivity].
  exfalso. apply Hno. exists label, path, rest.
  now apply token_prefix_Some.
Qed.

(** The first replacement of [formatMessage] rewrites the links. *)
Lemma replace_links_rewritten s :
  links_rewritten (chars backend_origin) s
    (replace_all file_link file_link_html s).
Proof.
  remember (length s) as n eqn:Hn. revert s Hn.
  induction n as [n IH] using lt_wf_ind. intros s Hn.
  destruct s as [|c s]; [constructor|].
  destruct (token_prefix (c :: s)) as [[[label path] rest]|] eqn:E.
  - apply token_prefix_Some in E as (Hl & Hp & Hs). rewrite Hs.
    rewrite replace_links_token by assumption.
    constructor; try assumption.
    apply (IH (length rest)); [|reflexivity].
    subst n. rewrite Hs, length_app.
    pose proof (token_nonempty label path).
    destruct (token label path); [contradiction|cbn; lia].
  - apply token_prefix_None in E.
    rewrite replace_links_char by exact E.
    constructor; [exact E|].
    apply (IH (length s)); [subst n; cbn; lia|reflexivity].
Qed.

(** The relation leaves no choice: it describes a function. *)
Lemma links_rewritten_unique s out :
  links_rewritten (chars backend_origin) s out ->
  out = replace_all file_link file_link_html s.
Proof.
  induction 1 as [|label path rest out Hl Hp _ IH|c s out Hno _ IH].
  - reflexivity.
  - rewrite replace_links_token by assumption. now rewrite IH.
  - rewrite replace_links_char by assumption. now rewrite IH.
Qed.

(** The second replacement turns line breaks into [<br>]. *)
Lemma replace_newlines s :
  replace_all (Lit nl) [Text (chars "<br>")] s = line_breaks s.
Proof.
  induction s as [|x s IH]; [reflexivity|].
  unfold line_breaks. cbn [flat_map]. fold (line_breaks s).
  destruct (Ascii.eqb x nl) eqn:E.
  - rewrite <- IH.
    apply (replace_all_match (Lit nl) [Text (chars "<br>")] [x] s []);
      [discriminate|].
    unfold exec. cbn [app]. rewrite rmatch_lit. now rewrite E.
  - rewrite <- IH. apply replace_all_nomatch.
    unfold exec. rewrite rmatch_lit. now rewrite E.
Qed.

(** C7: [formatMessage] rewrites the file links and then converts the
    line breaks.  For every message, each token [📄 [label](path)] met
    from left to right has become the link whose [href] is the backend
    origin followed by the path and whose text is [📄 label], every
    other character is kept, and in the result of that rewrite each
    line break has become [<br>].  On [📄 [report.docx](/files/abc)] the
    result is the link to [http://localhost:8765/files/abc] showing
    [📄 report.docx]. *)
Theorem formatMessage_rewrites_links :
  (forall message : string,
     exists linked : text,
       links_rewritten (chars backend_origin) (chars message) linked /\
       formatMessage message = string_of_list_ascii (line_breaks linked)) /\
  formatMessage "📄 [report.docx](/files/abc)" =
    "<a href=" +:+ quoted "http://localhost:8765/files/abc" +:+
    " target=" +:+ quoted "_blank" +:+
    " class=" +:+ quoted "file-link" +:+ ">📄 report.docx</a>".
Proof.
  split.
  - intros message.
    exists (replace_all file_link file_link_html (chars message)).
    split; [apply replace_links_rewritten|].
    unfold formatMessage, formatMessage_text.
    now rewrite replace_newlines.
  - vm_compute. reflexivity.
Qed.

(** * Further properties of the progress panel *)

Section Connection.

Variable JSON_parse : string -> option json.

#[local] Abbreviation receive := (onmessage JSON_parse).

(** What a frame adds to the log: nothing, the [setTimeout] of a
    complete event, the [close] of an error event, or a
    [console.error]. *)
Lemma onmessage_calls f w :
  calls (receive f w) = calls w \/
  calls (receive f w) = calls w ++ [SetTimeout 3000] \/
  calls (receive f w) = calls w ++ [ConsoleError parse_failed] \/
  exists h, eventSource w = Some h /\ calls (receive f w) = calls w ++ [Close h].
Proof.
  unfold onmessage, try_message, parse.
  destruct (JSON_parse f) as [data|]; cbn; [|auto].
  destruct (get_type data) as [ty|]; cbn; [|auto].
  unfold dispatch.
  destruct ty as [[| | |t| |]|]; auto.
  destruct (String.eqb t "start"); [auto|].
  destruct (String.eqb t "step"); [auto|].
  destruct (String.eqb t "complete"); [auto|].
  destruct (String.eqb t "error"); [|auto].
  unfold close_if_connected. cbn.
  destruct (eventSource w) as [h|]; cbn; [|auto].
  right. right. right. now exists h.
Qed.

Lemma fire_adds_closes due now : forall w,
  exists n,
    calls (fire due now w) =
    calls w ++ match eventSource w with
               | Some h => repeat (Close h) n
               | None => []
               end.
Proof.
  induction due as [|d due IH]; intros w; cbn.
  - exists 0. destruct (eventSource w); cbn; now rewrite app_nil_r.
  - destruct (d <=? now)%nat; [|apply IH].
    destruct (IH (close_if_connected w)) as [n Hn]. rewrite Hn.
    destruct (close_if_connected_refs w) as (_ & _ & _ & _ & -> & _).
    unfold close_if_connected.
    destruct (eventSource w) as [h|]; cbn.
    + exists (S n). now rewrite <- app_assoc.
    + now exists 0.
Qed.

(** A handler only adds to the log, never a [new EventSource], and a
    [close] only on the connection the variable holds. *)
Lemma step_adds i w :
  exists added,
    calls (step JSON_parse w i) = calls w ++ added /\
    Forall (fun c => is_new c = false /\
                     (is_close c = true -> exists h,
                        c = Close h /\ eventSource w = Some h)) added.
Proof.
  destruct i as [f| | | |ms]; cbn [step].
  - destruct (onmessage_calls f w) as [H|[H|[H|(h & Hh & H)]]]; rewrite H.
    + exists []. now rewrite app_nil_r.
    + eexists. split; [reflexivity|]. repeat constructor. discriminate.
    + eexists. split; [reflexivity|]. repeat constructor. discriminate.
    + eexists. split; [reflexivity|]. repeat constructor. intros _. now exists h.
  - unfold onerror. cbn. destruct (eventSource w) as [h|] eqn:E; cbn.
    + exists [ConsoleError stream_error; Close h].
      split; [now rewrite <- app_assoc|].
      repeat constructor; try discriminate. intros _. now exists h.
    + eexists. split; [reflexivity|]. repeat constructor. discriminate.
  - exists []. cbn. now rewrite app_nil_r.
  - unfold onUnmounted, close_if_connected.
    destruct (eventSource w) as [h|] eqn:E; cbn.
    + eexists. split; [reflexivity|]. repeat constructor. intros _. now exists h.
    + exists []. now rewrite app_nil_r.
  - unfold elapse.
    match goal with
    | |- context [fire ?due ?now ?w0] =>
        destruct (fire_adds_closes due now w0) as [n Hn]
    end.
    rewrite Hn. cbn [eventSource calls set_timers set_clock].
    destruct (eventSource w) as [h|]; [|exists []; split; [reflexivity|constructor]].
    eexists. split; [reflexivity|].
    apply List.Forall_forall. intros c Hc. apply repeat_spec in Hc. subst c.
    split; [reflexivity|]. intros _. now exists h.
Qed.

(** Only [onerror] assigns the variable, and it assigns [null]. *)
Lemma step_eventSource i w :
  eventSource (step JSON_parse w i) =
  if is_stream_error i then None else eventSource w.
Proof.
  destruct i as [f| | | |ms]; cbn [step is_stream_error].
  - apply onmessage_eventSource.
  - unfold onerror. cbn. destruct (eventSource w) eqn:E; cbn; congruence.
  - reflexivity.
  - unfold onUnmounted. now destruct (close_if_connected_refs w) as (_&_&_&_&->&_).
  - now destruct (elapse_flags ms w) as (_ & _ & _ & _ & ->).
Qed.

Lemma run_snoc w inputs i :
  run JSON_parse w (inputs ++ [i]) = step JSON_parse (run JSON_parse w inputs) i.
Proof. now rewrite run_app. Qed.

Lemma eventSource_after inputs :
  eventSource (run JSON_parse mounted inputs) =
  if existsb is_stream_error inputs then None else Some 0.
Proof.
  induction inputs as [|i inputs IH] using rev_ind; [reflexivity|].
  rewrite run_snoc, step_eventSource, existsb_app. cbn.
  rewrite orb_false_r, IH.
  destruct (is_stream_error i); [now rewrite orb_true_r|].
  now rewrite orb_false_r.
Qed.

(** X1: the variable of the mounted component holds the connection until a
    stream error, and [null] from then on; so unmounting calls [close]
    on the connection unless a stream error came first, also when an
    error event or the delayed close has closed it already. *)
Theorem unmount_closes_unless_stream_error inputs :
  let w := run JSON_parse mounted inputs in
  eventSource w = (if existsb is_stream_error inputs then None else Some 0) /\
  calls (onUnmounted w) =
    calls w ++ (if existsb is_stream_error inputs then [] else [Close 0]).
Proof.
  pose proof (eventSource_after inputs) as H.
  cbv zeta. split; [exact H|].
  unfold onUnmounted, close_if_connected. rewrite H.
  destruct (existsb is_stream_error inputs); cbn; [now rewrite app_nil_r|reflexivity].
Qed.

(** X2: the component never reconnects: whatever happens after mounting,
    the one [new EventSource] in the log is that of the mount, and every
    [close] is called on that connection. *)
Theorem never_reconnects inputs :
  let w := run JSON_parse mounted inputs in
  filter (fun c => is_new c = true) (calls w) = [NewEventSource progress_url 0] /\
  (forall h, In (Close h) (calls w) -> h = 0).
Proof.
  cbv zeta. induction inputs as [|i inputs [IHn IHc]] using rev_ind.
  - split; [reflexivity|]. intros h [H|[]]. discriminate H.
  - rewrite run_snoc.
    destruct (step_adds i (run JSON_parse mounted inputs)) as (added & -> & Hadd).
    pose proof (eventSource_after inputs) as Hes. split.
    + rewrite filter_app, IHn.
      replace (filter (fun c => is_new c = true) added) with (@nil call);
        [reflexivity|].
      clear -Hadd. induction added as [|c added IH]; [reflexivity|].
      inversion Hadd as [|? ? [Hc _] Hrest]; subst.
      rewrite filter_cons, decide_False by (rewrite Hc; discriminate).
      now apply IH.
    + intros h Hin. apply in_app_or in Hin as [Hin|Hin]; [now apply IHc|].
      rewrite List.Forall_forall in Hadd.
      destruct (Hadd _ Hin) as [_ Hclose].
      destruct (Hclose eq_refl) as (h' & Heq & Hsome).
      injection Heq as ->. rewrite Hes in Hsome.
      destruct (existsb is_stream_error inputs); congruence.
Qed.

(** X3: a stream error leaves the steps and the flags as they were, and
    from then on no handler calls [close] again: not the delayed close,
    not an error event, not unmounting. *)
Theorem no_close_after_stream_error w inputs :
  let w1 := onerror w in
  steps w1 = steps w /\ isProcessing w1 = isProcessing w /\
  isComplete w1 = isComplete w /\ hasError w1 = hasError w /\
  eventSource (run JSON_parse w1 inputs) = None /\
  filter (fun c => is_close c = true) (calls (run JSON_parse w1 inputs)) =
  filter (fun c => is_close c = true) (calls w1).
Proof.
  cbv zeta.
  assert (eventSource (onerror w) = None) as Hnull
    by (unfold onerror; cbn; destruct (eventSource w) eqn:E; cbn; congruence).
  repeat split; try (unfold onerror; cbn; now destruct (eventSource w)).
  - induction inputs as [|i inputs IH] using rev_ind; [exact Hnull|].
    rewrite run_snoc, step_eventSource, IH. now destruct (is_stream_error i).
  - induction inputs as [|i inputs IH] using rev_ind; [reflexivity|].
    rewrite run_snoc.
    assert (eventSource (run JSON_parse (onerror w) inputs) = None) as Hn.
    { clear IH. induction inputs as [|j inputs IH] using rev_ind; [exact Hnull|].
      rewrite run_snoc, step_eventSource, IH. now destruct (is_stream_error j). }
    destruct (step_adds i (run JSON_parse (onerror w) inputs)) as (added & -> & Hadd).
    rewrite filter_app, IH.
    replace (filter (fun c => is_close c = true) added) with (@nil call);
      [now rewrite app_nil_r|].
    clear -Hadd Hn. induction added as [|c added IH]; [reflexivity|].
    inversion Hadd as [|? ? [_ Hc] Hrest]; subst.
    rewrite filter_cons. destruct (decide (is_close c = true)) as [Hd|Hd].
    + destruct (Hc Hd) as (h & _ & Hsome). congruence.
    + now apply IH.
Qed.

(** ** The steps and the flags *)

(** Every way a frame can go. *)
Lemma onmessage_cases f w :
  receive f w = w \/
  receive f w = log_call (ConsoleError parse_failed) w \/
  exists d, JSON_parse f = Some d /\
    ((is_event JSON_parse "start" f d /\
      receive f w = mkWorld [d] true false false
                      (eventSource w) (timers w) (clock w) (calls w)) \/
     (is_event JSON_parse "step" f d /\ receive f w = push_step d w) \/
     (is_event JSON_parse "complete" f d /\
      receive f w = mkWorld (steps w ++ [d]) false true (hasError w)
                      (eventSource w) (timers w ++ [clock w + 3000]) (clock w)
                      (calls w ++ [SetTimeout 3000])) \/
     (is_event JSON_parse "error" f d /\
      receive f w = close_if_connected
                      (mkWorld (steps w ++ [d]) false (isComplete w) true
                         (eventSource w) (timers w) (clock w) (calls w)))).
Proof.
  destruct (JSON_parse f) as [d|] eqn:Hp;
    [|right; left; now apply onmessage_malformed].
  destruct (get_type d) as [ty|] eqn:Hty.
  2:{ right; left. unfold onmessage, try_message, parse.
      rewrite Hp. cbn. now rewrite Hty. }
  rewrite (onmessage_dispatch _ _ _ _ _ Hp Hty).
  unfold dispatch.
  destruct ty as [[| | |t| |]|]; auto.
  destruct (String.eqb t "start") eqn:E1.
  { apply String.eqb_eq in E1. subst t. right; right. exists d.
    split; [reflexivity|]. left. now repeat split. }
  destruct (String.eqb t "step") eqn:E2.
  { apply String.eqb_eq in E2. subst t. right; right. exists d.
    split; [reflexivity|]. right; left. now repeat split. }
  destruct (String.eqb t "complete") eqn:E3.
  { apply String.eqb_eq in E3. subst t. right; right. exists d.
    split; [reflexivity|]. right; right; left. now repeat split. }
  destruct (String.eqb t "error") eqn:E4; [|auto].
  apply String.eqb_eq in E4. subst t. right; right. exists d.
  split; [reflexivity|]. right; right; right. now repeat split.
Qed.

Lemma processing_ok_step i w :
  processing_ok w -> processing_ok (step JSON_parse w i).
Proof.
  intros Hok. destruct i as [f| | | |ms]; cbn [step].
  - destruct (onmessage_cases f w) as [->|[->|(d & Hp & Hc)]];
      [exact Hok|exact Hok|].
    destruct Hc as [[He ->]|[[He ->]|[[He ->]|[He ->]]]].
    + intros _. repeat split. exists d, []. split; [reflexivity|apply He].
    + intros Hproc. destruct (Hok Hproc) as (Hc & Hh & d0 & rest & Hs & Hd).
      repeat split; try assumption. exists d0, (rest ++ [d]).
      cbn. rewrite Hs. now split.
    + discriminate.
    + intros Hproc.
      match type of Hproc with
      | isProcessing (close_if_connected ?x) = true =>
          destruct (close_if_connected_refs x) as (_ & E & _); rewrite E in Hproc
      end.
      discriminate Hproc.
  - unfold processing_ok, onerror. cbn. destruct (eventSource w); exact Hok.
  - discriminate.
  - unfold processing_ok, onUnmounted.
    destruct (close_if_connected_refs w) as (-> & -> & -> & -> & _). exact Hok.
  - unfold processing_ok.
    destruct (elapse_flags ms w) as (-> & -> & -> & -> & _). exact Hok.
Qed.

Lemma processing_ok_run inputs : processing_ok (run JSON_parse mounted inputs).
Proof.
  induction inputs as [|i inputs IH] using rev_ind; [discriminate|].
  rewrite run_snoc. now apply processing_ok_step.
Qed.

(** X4: whatever the inputs, also outside the stream invariant,
    [isProcessing] is never set together with [isComplete] or
    [hasError]; so the loading indicator is shown exactly while
    [isProcessing] is set, and the panel exactly when there is a step:
    the second operand of each [v-if] decides nothing. *)
Theorem spinner_shows_processing inputs :
  let w := run JSON_parse mounted inputs in
  isProcessing w && (isComplete w || hasError w) = false /\
  spinner_visible w = isProcessing w /\
  panel_visible w = (0 <? length (steps w))%nat.
Proof.
  cbv zeta. pose proof (processing_ok_run inputs) as Hok.
  unfold processing_ok, spinner_visible, panel_visible in *.
  destruct (isProcessing (run JSON_parse mounted inputs)).
  - destruct (Hok eq_refl) as (-> & -> & d & rest & -> & _). now cbn.
  - cbn. now rewrite orb_false_r.
Qed.

(** X5: whatever the inputs, while [isProcessing] is set the first step is
    the start event of the job. *)
Theorem processing_begins_with_start inputs :
  let w := run JSON_parse mounted inputs in
  isProcessing w = true ->
  exists d rest, steps w = d :: rest /\
                 get_type d = Normal (Some (JStr "start")).
Proof.
  cbv zeta. intros Hproc.
  now destruct (processing_ok_run inputs Hproc) as (_ & _ & H).
Qed.

(** X6: the step list is a subsequence, in arrival order, of the frames
    received and parsed, and holds only events of the four types:
    nothing is stored twice, reordered or made up. *)
Theorem steps_are_received_events inputs :
  let w := run JSON_parse mounted inputs in
  steps w `sublist_of` parsed_frames JSON_parse inputs /\
  Forall (fun d => event_kind d <> KIgnored) (steps w).
Proof.
  cbv zeta. induction inputs as [|i inputs [IHs IHk]] using rev_ind.
  - split; [reflexivity|constructor].
  - rewrite run_snoc. unfold parsed_frames in *. rewrite omap_app.
    set (w := run JSON_parse mounted inputs) in *.
    destruct i as [f| | | |ms]; cbn [step]; simpl (omap _ [_]).
    + destruct (onmessage_cases f w) as [->|[->|(d & Hp & Hc)]].
      * split; [now apply sublist_inserts_r|exact IHk].
      * split; [now apply sublist_inserts_r|exact IHk].
      * rewrite Hp.
        assert (forall ty, is_event JSON_parse ty f d ->
                  kind_of_type (Some (JStr ty)) <> KIgnored ->
                  event_kind d <> KIgnored) as Hkind.
        { intros ty [_ Hty]. unfold event_kind. now rewrite Hty. }
        destruct Hc as [[He ->]|[[He ->]|[[He ->]|[He ->]]]].
        -- split; [apply sublist_inserts_l; reflexivity|].
           repeat constructor. now apply (Hkind _ He).
        -- split; [now apply sublist_app|].
           apply Forall_app. split; [exact IHk|].
           repeat constructor. now apply (Hkind _ He).
        -- split; [now apply sublist_app|].
           apply Forall_app. split; [exact IHk|].
           repeat constructor. now apply (Hkind _ He).
        -- match goal with
           | |- context [close_if_connected ?x] =>
               destruct (close_if_connected_refs x) as (-> & _)
           end.
           split; [now apply sublist_app|].
           apply Forall_app. split; [exact IHk|].
           repeat constructor. now apply (Hkind _ He).
    + assert (steps (onerror w) = steps w) as ->
        by (unfold onerror; cbn; now destruct (eventSource w)).
      rewrite app_nil_r. now split.
    + split; [apply sublist_nil_l|constructor].
    + unfold onUnmounted. destruct (close_if_connected_refs w) as (-> & _).
      rewrite app_nil_r. now split.
    + destruct (elapse_flags ms w) as (-> & _).
      rewrite app_nil_r. now split.
Qed.

(** X7: a frame that parses to something else than an event of the four
    types is dropped without a trace, except [null], which is reported
    on the console like a frame that does not parse: reading [type]
    off [null] throws inside the same [try]. *)
Theorem ignored_frame_dropped f d w :
  JSON_parse f = Some d -> event_kind d = KIgnored ->
  receive f w =
  match d with
  | JNull => log_call (ConsoleError parse_failed) w
  | _ => w
  end.
Proof.
  intros Hp Hk. unfold onmessage, try_message, parse. rewrite Hp. cbn.
  unfold event_kind in Hk.
  destruct d as [|b|x|t|items|props]; try reflexivity.
  cbn in *. unfold kind_of_type in Hk. unfold dispatch.
  destruct (lookup_prop "type" props) as [[| | |t| |]|]; try reflexivity.
  destruct (String.eqb t "start"); [discriminate|].
  destruct (String.eqb t "step"); [discriminate|].
  destruct (String.eqb t "complete"); [discriminate|].
  destruct (String.eqb t "error"); [discriminate|reflexivity].
Qed.

End Connection.

(** * Further properties of [formatMessage] *)

Lemma chars_of_text t : chars (string_of_list_ascii t) = t.
Proof. apply list_ascii_of_string_of_list_ascii. Qed.

Lemma text_of_chars s : string_of_list_ascii (chars s) = s.
Proof. apply string_of_list_ascii_of_string. Qed.

Lemma in_line_breaks c s :
  In c (line_breaks s) -> In c s \/ In c (chars "<br>").
Proof.
  unfold line_breaks. intros H. apply in_flat_map in H as (x & Hx & Hc).
  destruct (Ascii.eqb x nl); [now right|].
  destruct Hc as [->|[]]. now left.
Qed.

Lemma line_breaks_unbroken s : ~ In nl s -> line_breaks s = s.
Proof.
  induction s as [|x s IH]; intros Hs; [reflexivity|].
  unfold line_breaks. cbn [flat_map]. fold (line_breaks s).
  destruct (Ascii.eqb x nl) eqn:E.
  - apply Ascii.eqb_eq in E. subst x. exfalso. apply Hs. now left.
  - cbn. rewrite IH; [reflexivity|]. intros H. apply Hs. now right.
Qed.

(** X8: no line break is left in what [formatMessage] returns: [v-html]
    gets every one of them as [<br>], also those inside a label or a
    path. *)
Theorem formatMessage_no_line_break (message : string) :
  ~ In nl (chars (formatMessage message)).
Proof.
  unfold formatMessage, formatMessage_text.
  rewrite chars_of_text, replace_newlines.
  unfold line_breaks. intros H. apply in_flat_map in H as (x & _ & Hc).
  destruct (Ascii.eqb x nl) eqn:E.
  - cbn in Hc. unfold nl in Hc.
    repeat (destruct Hc as [Hc|Hc]; [discriminate Hc|]). exact Hc.
  - destruct Hc as [->|[]]. now rewrite Ascii.eqb_refl in E.
Qed.

Lemma token_has_bracket label path rest :
  In "["%char (token label path ++ rest).
Proof.
  unfold token. rewrite <- !app_assoc. cbn. do 5 right. now left.
Qed.

Lemma replace_links_without_bracket s :
  ~ In "["%char s -> replace_all file_link file_link_html s = s.
Proof.
  induction s as [|c s IH]; intros Hs.
  - unfold replace_all. cbn [replace_from]. now rewrite exec_file_link.
  - rewrite replace_links_char.
    + rewrite IH; [reflexivity|]. intros H. apply Hs. now right.
    + intros (label & path & rest & _ & _ & Heq). apply Hs.
      rewrite Heq. apply token_has_bracket.
Qed.

(** X9: [formatMessage] escapes nothing: a message with no [[] and no line
    break comes back as it is, markup included, and is rendered by
    [v-html]. *)
Theorem formatMessage_passes_markup (message : string) :
  ~ In "["%char (chars message) -> ~ In nl (chars message) ->
  formatMessage message = message.
Proof.
  intros Hb Hn. unfold formatMessage, formatMessage_text.
  rewrite replace_newlines, replace_links_without_bracket by exact Hb.
  rewrite line_breaks_unbroken by exact Hn. apply text_of_chars.
Qed.

Lemma formatMessage_passes_markup_witness :
  formatMessage "<img src=x onerror=alert(1)>" = "<img src=x onerror=alert(1)>".
Proof.
  apply (formatMessage_passes_markup "<img src=x onerror=alert(1)>");
    vm_compute; intuition discriminate.
Defined.

(** * ChatBox: [formatContent] *)

Lemma replace_all_absent c r tpl s :
  ~ In c s -> replace_all (Seq (Lit c) r) tpl s = s.
Proof.
  induction s as [|x s IH]; intros Hs; [reflexivity|].
  rewrite replace_all_nomatch.
  - rewrite IH; [reflexivity|]. intros H. apply Hs. now right.
  - unfold exec. rewrite rmatch_seq, rmatch_lit.
    destruct (Ascii.eqb x c) eqn:E; [|reflexivity].
    apply Ascii.eqb_eq in E. subst x. exfalso. apply Hs. now left.
Qed.

Lemma in_link_html c origin label path :
  In c (link_html origin label path) ->
  In c label \/ In c path \/ In c (link_html origin [] []).
Proof.
  unfold link_html.
  repeat (rewrite in_app_iff || cbn [In app]). tauto.
Qed.

Lemma in_token_parts c label path rest :
  In c label \/ In c path -> In c (token label path ++ rest).
Proof.
  unfold token. repeat (rewrite in_app_iff || cbn [In app]). tauto.
Qed.

(** The link rewriting brings in no character but those of its HTML. *)
Lemma links_rewritten_chars origin s out :
  links_rewritten origin s out ->
  forall c, In c out -> In c s \/ In c (link_html origin [] []).
Proof.
  induction 1 as [|label path rest out Hl Hp _ IH|x s out Hno _ IH];
    intros c Hc.
  - destruct Hc.
  - apply in_app_or in Hc as [Hc|Hc].
    + apply in_link_html in Hc as [Hc|[Hc|Hc]]; [left|left|now right];
        apply in_token_parts; tauto.
    + destruct (IH c Hc) as [H|H]; [left|now right].
      apply in_or_app. now right.
  - destruct Hc as [->|Hc]; [left; now left|].
    destruct (IH c Hc) as [H|H]; [left; now right|now right].
Qed.

Lemma formatMessage_text_chars c s :
  In c (formatMessage_text s) ->
  In c s \/ In c (link_html (chars backend_origin) [] []) \/ In c (chars "<br>").
Proof.
  unfold formatMessage_text. rewrite replace_newlines. intros H.
  apply in_line_breaks in H as [H|H]; [|tauto].
  apply (links_rewritten_chars _ _ _ (replace_links_rewritten s)) in H. tauto.
Qed.

Lemma not_in_by_eqb c (t : text) :
  existsb (Ascii.eqb c) t = false -> ~ In c t.
Proof.
  intros H Hin. assert (existsb (Ascii.eqb c) t = true) as Ht.
  { apply existsb_exists. exists c. split; [exact Hin|apply Ascii.eqb_refl]. }
  congruence.
Qed.

Lemma includes_absent c needle hay :
  ~ In c hay -> includes (c :: needle) hay = false.
Proof.
  induction hay as [|x hay IH]; intros Hs; [reflexivity|].
  cbn [includes strip].
  destruct (Ascii.eqb x c) eqn:E.
  - apply Ascii.eqb_eq in E. subst x. exfalso. apply Hs. now left.
  - apply IH. intros H. apply Hs. now right.
Qed.

Lemma includes_found needle pre rest :
  includes needle (pre ++ needle ++ rest) = true.
Proof.
  induction pre as [|x pre IH].
  - cbn [app]. pose proof (strip_app needle rest) as Hs.
    destruct (needle ++ rest); cbn [includes]; now rewrite Hs.
  - cbn [app includes].
    destruct (strip needle (x :: pre ++ needle ++ rest)); [reflexivity|exact IH].
Qed.

(** The first piece of a split is what precedes the first separator. *)
Lemma split_first c sep pre rest : forall cur,
  ~ In c pre ->
  nth 0 (split_from (c :: sep) 0 cur (pre ++ (c :: sep) ++ rest)) [] =
  rev cur ++ pre.
Proof.
  induction pre as [|x pre IH]; intros cur Hc.
  - cbn [app split_from]. change (c :: sep ++ rest) with ((c :: sep) ++ rest).
    rewrite strip_app. cbn. now rewrite app_nil_r.
  - cbn [app split_from strip].
    destruct (Ascii.eqb x c) eqn:E.
    + apply Ascii.eqb_eq in E. subst x. exfalso. apply Hc. now left.
    + rewrite IH by (intros H; apply Hc; now right).
      cbn. now rewrite <- app_assoc.
Qed.

Lemma drop_tokens_suffix tokens : forall s skip,
  exists pre, s = pre ++ drop_tokens tokens skip s.
Proof.
  induction s as [|x s IH]; intros skip; [now exists []|].
  cbn [drop_tokens]. destruct skip as [|n].
  - destruct (token_length tokens (x :: s)) as [|n]; [now exists []|].
    destruct (IH n) as [pre Hpre]. exists (x :: pre). cbn. now f_equal.
  - destruct (IH n) as [pre Hpre]. exists (x :: pre). cbn. now f_equal.
Qed.

Lemma in_trim c s : In c (trim s) -> In c s.
Proof.
  unfold trim, trimEnd, trimStart. intros H.
  apply in_rev in H.
  destruct (drop_tokens_suffix (map (@rev ascii) white_space)
              (rev (drop_tokens white_space 0 s)) 0) as [p1 H1].
  assert (In c (rev (drop_tokens white_space 0 s))) as H2
    by (rewrite H1; apply in_or_app; now right).
  apply in_rev in H2.
  destruct (drop_tokens_suffix white_space s 0) as [p2 Hp2].
  rewrite Hp2. apply in_or_app. now right.
Qed.

(** X10: where a message has no backquote and no asterisk, the chat box
    shows it as the progress panel does: same links, same line breaks. *)
Theorem formatContent_agrees_with_formatMessage (content : string) :
  ~ In "`"%char (chars content) -> ~ In "*"%char (chars content) ->
  formatContent content = formatMessage content.
Proof.
  intros Hq Ha. unfold formatContent, formatMessage. f_equal.
  unfold formatContent_text, fence.
  change (chars "```") with ("`"%char :: chars "``").
  rewrite includes_absent by exact Hq.
  fold (formatMessage_text (chars content)).
  unfold code_span, strong_span.
  rewrite (replace_all_absent "`"), (replace_all_absent "*"); [reflexivity| |].
  - intros H. apply formatMessage_text_chars in H as [H|[H|H]]; [tauto| |];
      revert H; apply not_in_by_eqb; vm_compute; reflexivity.
  - intros H. apply formatMessage_text_chars in H as [H|[H|H]]; [tauto| |];
      revert H; apply not_in_by_eqb; vm_compute; reflexivity.
Qed.

Lemma formatContent_agrees_with_formatMessage_witness :
  formatContent "done: 📄 [report.docx](/files/abc)" =
  formatMessage "done: 📄 [report.docx](/files/abc)".
Proof.
  apply (formatContent_agrees_with_formatMessage
           "done: 📄 [report.docx](/files/abc)");
    apply not_in_by_eqb; vm_compute; reflexivity.
Defined.

(** X11: what follows the first code fence never shows: a content with a
    fence is formatted as its summary, the text before the fence
    without the white space around it, and as [处理完成] when that is
    empty. *)
Theorem formatContent_cuts_at_fence (pre rest : text) :
  ~ In "`"%char pre ->
  formatContent_text (pre ++ fence ++ rest) =
    formatContent_text
      match trim pre with
      | [] => done_summary
      | summary => summary
      end /\
  (trim pre = [] -> formatContent_text (pre ++ fence ++ rest) = done_summary).
Proof.
  intros Hq.
  assert (formatContent_text (pre ++ fence ++ rest) =
          formatContent_text
            match trim pre with [] => done_summary | summary => summary end)
    as Hcut.
  { assert (forall s, ~ In "`"%char s ->
              formatContent_text s =
              replace_all strong_span strong_html
                (replace_all code_span code_html
                   (replace_all (Lit nl) [Text (chars "<br>")]
                      (replace_all file_link file_link_html s)))) as Hplain.
    { intros s Hs. unfold formatContent_text, fence.
      change (chars "```") with ("`"%char :: chars "``").
      now rewrite includes_absent by exact Hs. }
    unfold formatContent_text at 1.
    rewrite includes_found.
    unfold split, fence. change (chars "```") with ("`"%char :: chars "``").
    rewrite (split_first "`" (chars "``") pre rest []) by exact Hq.
    cbn [rev app].
    destruct (trim pre) as [|x t] eqn:E.
    - rewrite Hplain; [reflexivity|].
      apply not_in_by_eqb. vm_compute. reflexivity.
    - rewrite Hplain; [reflexivity|].
      rewrite <- E. intros H. apply Hq. now apply in_trim. }
  split; [exact Hcut|].
  intros Hblank. rewrite Hcut, Hblank. vm_compute. reflexivity.
Qed.

Lemma formatContent_cuts_at_fence_witness :
  formatContent_text (chars "  saved **2** files  " ++ fence ++ chars "json {}") =
  chars "saved <strong>2</strong> files".
Proof.
  destruct (formatContent_cuts_at_fence
              (chars "  saved **2** files  ") (chars "json {}")) as [H _].
  - apply not_in_by_eqb. vm_compute. reflexivity.
  - rewrite H. vm_compute. reflexivity.
Defined.

(** * ContentEditor *)

Lemma strip_app_Some p q : forall s r,
  strip (p ++ q) s = Some r -> strip p s = Some (q ++ r).
Proof.
  induction p as [|c p IH]; intros s r H; cbn in *.
  - apply strip_Some in H. now rewrite H.
  - destruct s as [|x s]; [discriminate|].
    destruct (Ascii.eqb x c); [now apply IH|discriminate].
Qed.

(** A string that includes a text includes each of its prefixes. *)
Lemma includes_prefix p q hay :
  includes (p ++ q) hay = true -> includes p hay = true.
Proof.
  induction hay as [|x hay IH]; cbn [includes].
  - destruct (strip (p ++ q) []) eqn:E; [|discriminate].
    apply strip_app_Some in E. now rewrite E.
  - destruct (strip (p ++ q) (x :: hay)) eqn:E.
    + apply strip_app_Some in E. now rewrite E.
    + intros H. rewrite (IH H). now destruct (strip p (x :: hay)).
Qed.

(** X12: the two functions that read a style name agree on what a heading
    is: a block gets the heading placeholder exactly when its preview is
    one of the three heading classes, and the body placeholder exactly
    when its preview class is [preview-body]. *)
Theorem preview_class_matches_placeholder (styleName : string) :
  (getPlaceholder styleName = "输入标题内容..." /\
   In (getPreviewClass styleName) ["preview-h1"; "preview-h2"; "preview-h3"]) \/
  (getPlaceholder styleName = "输入正文内容..." /\
   getPreviewClass styleName = "preview-body").
Proof.
  unfold getPlaceholder, getPreviewClass, str_includes.
  pose proof (includes_prefix (chars "Heading") (chars " 1") (chars styleName)) as H1.
  pose proof (includes_prefix (chars "Heading") (chars " 2") (chars styleName)) as H2.
  pose proof (includes_prefix (chars "标题") (chars " 1") (chars styleName)) as H3.
  pose proof (includes_prefix (chars "标题") (chars " 2") (chars styleName)) as H4.
  change (chars "Heading" ++ chars " 1") with (chars "Heading 1") in H1.
  change (chars "Heading" ++ chars " 2") with (chars "Heading 2") in H2.
  change (chars "标题" ++ chars " 1") with (chars "标题 1") in H3.
  change (chars "标题" ++ chars " 2") with (chars "标题 2") in H4.
  set (h1 := includes (chars "Heading 1") (chars styleName)) in *.
  set (h2 := includes (chars "Heading 2") (chars styleName)) in *.
  set (h := includes (chars "Heading") (chars styleName)) in *.
  set (b1 := includes (chars "标题 1") (chars styleName)) in *.
  set (b2 := includes (chars "标题 2") (chars styleName)) in *.
  set (b := includes (chars "标题") (chars styleName)) in *.
  set (t := includes (chars "Title") (chars styleName)) in *.
  clearbody h1 h2 h b1 b2 b t.
  destruct h1, h2, h, b1, b2, b, t;
    try discriminate (H1 eq_refl); try discriminate (H2 eq_refl);
    try discriminate (H3 eq_refl); try discriminate (H4 eq_refl);
    cbn; auto 7.
Qed.

Lemma editor_step_keeps_a_block JSON_stringify availableStyles bs e :
  bs <> [] -> editor_step JSON_stringify availableStyles bs e <> [].
Proof.
  intros Hbs. destruct e as [styleName|index|index t|index s|newVal]; cbn.
  - unfold addBlock. now destruct bs.
  - unfold removeBlock.
    destruct bs as [|b1 [|b2 bs]]; [contradiction|exact Hbs|].
    cbn [length Nat.ltb Nat.leb].
    destruct index as [|[|index]]; cbn; discriminate.
  - unfold set_block_text. destruct bs; [contradiction|].
    destruct index; discriminate.
  - unfold set_block_style. destruct bs; [contradiction|].
    destruct index; discriminate.
  - unfold onModelValue.
    destruct (String.eqb _ _); [exact Hbs|].
    destruct newVal; cbn; discriminate.
Qed.

(** X13: the editor never runs out of blocks: it starts with one at least,
    and adding, removing, editing and the updates of the parent leave
    one at least, since the last block cannot be removed and an empty
    list from the parent is replaced by one empty heading. *)
Theorem editor_keeps_a_block JSON_stringify availableStyles modelValue events :
  editor_run JSON_stringify availableStyles (initial_blocks modelValue) events
  <> [].
Proof.
  unfold editor_run.
  assert (initial_blocks modelValue <> []) as H0
    by (unfold initial_blocks; destruct modelValue; discriminate).
  revert H0. generalize (initial_blocks modelValue) as bs.
  induction events as [|e events IH]; intros bs Hbs; [exact Hbs|].
  cbn [fold_left]. apply IH. now apply editor_step_keeps_a_block.
Qed.

(** * TemplateMode *)

Lemma or_else_not_empty x fallback :
  fallback <> EmptyString -> or_else x fallback <> EmptyString.
Proof. intros H. destruct x as [[|c s]|]; cbn; try exact H. discriminate. Qed.



(** X15: an analysis that fails, by a response without [success] or by a
    rejected request, stays on the current step with the template path,
    the styles and the blocks it had, and clears [analyzing]; a response
    without [success] always leaves an error message to show. *)
Theorem analysis_failure_stays result st :
  match result with
  | Resolved data => success data = false
  | Rejected _ _ => True
  end ->
  let st' := analyzeTemplate_resume result st in
  currentStep st' = currentStep st /\ templatePath st' = templatePath st /\
  templateStyles st' = templateStyles st /\
  contentBlocks st' = contentBlocks st /\ analyzing st' = false /\
  (forall data, result = Resolved data -> analyzeError st' <> EmptyString).
Proof.
  intros H. cbv zeta. unfold analyzeTemplate_resume.
  destruct result as [data|response_error message].
  - rewrite H. repeat split. intros _ _.
    apply or_else_not_empty. discriminate.
  - repeat split. discriminate.
Qed.

Lemma analysis_failure_stays_witness :
  let st := mkTemplateMode 1 (Some (mkFile "t.docx")) EmptyString
              (mkStyles [] []) [] "word" false None true EmptyString
              [AnalyzeTemplate (mkFile "t.docx")] [] in
  let result := Resolved (mkAnalysis false EmptyString (mkStyles [] []) None) in
  let st' := analyzeTemplate_resume result st in
  currentStep st' = currentStep st /\ templatePath st' = templatePath st /\
  templateStyles st' = templateStyles st /\
  contentBlocks st' = contentBlocks st /\ analyzing st' = false /\
  (forall data, result = Resolved data -> analyzeError st' <> EmptyString).
Proof.
  apply (analysis_failure_stays
           (Resolved (mkAnalysis false EmptyString (mkStyles [] []) None))).
  reflexivity.
Defined.


(** * The further properties on sample input *)

Lemma processing_begins_with_start_witness :
  let w := run sample_parse mounted
             [Message start_frame; Message step1_frame; Elapse 500;
              Message malformed_frame; Message step2_frame] in
  exists d rest, steps w = d :: rest /\
                 get_type d = Normal (Some (JStr "start")).
Proof.
  apply (processing_begins_with_start sample_parse
           [Message start_frame; Message step1_frame; Elapse 500;
            Message malformed_frame; Message step2_frame]).
  vm_compute. reflexivity.
Defined.

Lemma ignored_frame_dropped_witness :
  onmessage sample_parse_ping ping_frame mounted = mounted.
Proof.
  apply (ignored_frame_dropped sample_parse_ping ping_frame ping_event mounted);
    vm_compute; reflexivity.
Defined.

(** * App: the saved configuration *)

Lemma storage_keys_differ :
  API_KEY_STORAGE <> PROVIDER_STORAGE /\ API_KEY_STORAGE <> MODEL_STORAGE /\
  PROVIDER_STORAGE <> MODEL_STORAGE.
Proof. repeat split; discriminate. Qed.

Lemma restored_form_cleared (storage : gmap string string) :
  restored_form
    (delete MODEL_STORAGE
       (delete PROVIDER_STORAGE (delete API_KEY_STORAGE storage))) = None.
Proof.
  destruct storage_keys_differ as (H1 & H2 & H3).
  unfold restored_form.
  rewrite lookup_delete_ne by congruence.
  rewrite lookup_delete_ne by congruence.
  now rewrite lookup_delete_eq.
Qed.




(** X18: after a confirmed [logout] nothing is left to restore at the
    next start, and [initAgent] asks for a key instead of posting one;
    a declined [logout] changes nothing. *)
Theorem logout_forgets_configuration (st : App) :
  restored_form (localStorage (logout true st)) = None /\
  agentReady (logout true st) = false /\
  init_forms (initAgent_begin (logout true st)) = init_forms st /\
  alerts (initAgent_begin (logout true st)) = alerts st ++ ["请输入 API Key"] /\
  logout false st = st.
Proof.
  repeat split. cbn [logout localStorage]. apply restored_form_cleared.
Qed.

